(** * audio2fseq: a shallow embedding of tools/audio2fseq.py

    The encoder turns a decoded PCM sample list into the channel data of an
    FSEQ v2 sequence file and can overlay that data on an existing file.
    This development embeds the pure core of the script (mono mix, linear
    resampler, frame encoder, header codec, standalone writer, merger and
    the driver that chains them) and proves the properties listed in the
    specification against it.

    Conventions.
    - Python [int] is [Z]; [bytes]/[bytearray] is [list byte]; a Python list
      of ints is [list Z].
    - A Python [float] is the rational number it denotes; every float
      operation is the exact operation followed by [round64], rounding to
      the nearest binary64 value (ties to even).
    - A raised exception is [Raise e]; a [while] loop is run with fuel and
      [OutOfFuel] stands for a loop that has not stopped yet.
    - Files are byte lists; [print] calls are omitted. *)

From Stdlib Require Import ZArith List Lia QArith Qround Qabs Qpower Lqa Bool.
From Stdlib Require String.
From Stdlib Require Floats.PrimFloat Floats.SpecFloat Floats.FloatOps.
From coqutil Require Import Byte Word.LittleEndianList.
Import ListNotations.
Local Open Scope Z_scope.

(** ** Python runtime *)

Module Py.

Inductive exn : Type :=
| ZeroDivisionError
| ValueError
| IndexError
| AssertionError
| StructError
| SystemExit (code : Z).

Inductive outcome (A : Type) : Type :=
| Ok (a : A)
| Raise (e : exn)
| OutOfFuel.

Arguments Ok {A} a.
Arguments Raise {A} e.
Arguments OutOfFuel {A}.

Definition bind {A B : Type} (m : outcome A) (k : A -> outcome B) : outcome B :=
  match m with
  | Ok a => k a
  | Raise e => Raise e
  | OutOfFuel => OutOfFuel
  end.

(** [for x in xs: ys.append(f(x))] where [f] may raise. *)
Fixpoint mapM {A B : Type} (f : A -> outcome B) (xs : list A) : outcome (list B) :=
  match xs with
  | [] => Ok []
  | x :: xs' =>
      bind (f x) (fun y => bind (mapM f xs') (fun ys => Ok (y :: ys)))
  end.

(** [len(l)] *)
Definition len {A : Type} (l : list A) : Z := Z.of_nat (length l).

(** Bound of a slice after Python's normalisation: a negative bound counts
    from the end, and the result is clamped to [0, len]. *)
Definition slice_bound (n i : Z) : Z :=
  if i <? 0 then Z.max (i + n) 0 else Z.min i n.

(** [l[start:stop]] *)
Definition slice {A : Type} (l : list A) (start stop : Z) : list A :=
  let a := slice_bound (len l) start in
  let b := slice_bound (len l) stop in
  firstn (Z.to_nat (b - a)) (skipn (Z.to_nat a) l).

(** [l[start:]] *)
Definition slice_from {A : Type} (l : list A) (start : Z) : list A :=
  skipn (Z.to_nat (slice_bound (len l) start)) l.

(** [l[start:stop] = data] on a mutable sequence: the addressed span is
    replaced by [data], whatever the length of [data]. *)
Definition slice_assign {A : Type} (l : list A) (start stop : Z) (data : list A)
  : list A :=
  let a := slice_bound (len l) start in
  let b := Z.max a (slice_bound (len l) stop) in
  firstn (Z.to_nat a) l ++ data ++ skipn (Z.to_nat b) l.

(** [l[i]] *)
Definition index {A : Type} (l : list A) (i : Z) : outcome A :=
  let j := if i <? 0 then i + len l else i in
  if (0 <=? j) && (j <? len l) then
    match nth_error l (Z.to_nat j) with
    | Some x => Ok x
    | None => Raise IndexError
    end
  else Raise IndexError.

(** [range(stop)] *)
Definition range (stop : Z) : list Z :=
  map Z.of_nat (seq 0 (Z.to_nat stop)).

(** [range(start, stop, step)] *)
Definition range3 (start stop step : Z) : outcome (list Z) :=
  if step =? 0 then Raise ValueError
  else
    let count :=
      if 0 <? step then (stop - start + step - 1) / step
      else (start - stop - step - 1) / (- step) in
    Ok (map (fun k => start + Z.of_nat k * step) (seq 0 (Z.to_nat count))).

(** [sum(l)] *)
Definition sum (l : list Z) : Z := fold_left Z.add l 0.

(** [a // b]: the quotient rounded toward negative infinity. *)
Definition floordiv (a b : Z) : outcome Z :=
  if b =? 0 then Raise ZeroDivisionError else Ok (a / b).

(** [bytearray(n)], [b"\x00" * n], [[0] * n] *)
Definition zeros (n : Z) : list byte := repeat Byte.x00 (Z.to_nat n).

End Py.

Import Py.

Declare Scope py_scope.
Delimit Scope py_scope with py.
Notation "x <- m ;; k" := (bind m (fun x => k))
  (at level 61, m at next level, right associativity) : py_scope.
Notation "' pat <- m ;; k" := (bind m (fun x => match x with pat => k end))
  (at level 61, pat pattern, m at next level, right associativity) : py_scope.
Local Open Scope py_scope.

(** ** Binary64 arithmetic *)

Module Float.

(** [2 ^ e] as a rational, for any integer exponent. *)
Definition pow2 (e : Z) : Q := (2 ^ e)%Q.

(** Floor of the binary logarithm of a positive rational. *)
Definition ilog2 (q : Q) : Z :=
  let c := Z.log2 (Qnum q) - Z.log2 (Z.pos (Qden q)) in
  if Qle_bool (pow2 c) q then c else c - 1.

(** Nearest integer, ties to the even neighbour. *)
Definition round_half_even (q : Q) : Z :=
  let f := Qfloor q in
  match Qcompare (q - inject_Z f) (1 # 2) with
  | Lt => f
  | Gt => f + 1
  | Eq => if Z.even f then f else f + 1
  end.

(** Rounding to binary64: 53 significant bits, smallest exponent -1074
    (so subnormal results are rounded as the hardware does). Infinities
    and NaN are not represented: the model is exact for results below
    2^1024 in magnitude, which covers every computation of the encoder on
    16-bit samples. *)
Definition round64 (q : Q) : Q :=
  if Qeq_bool q 0 then 0%Q
  else
    let e := Z.max (ilog2 (Qabs q) - 52) (-1074) in
    (inject_Z (round_half_even (q / pow2 e)) * pow2 e)%Q.

(** [int(x)] for a float [x]: truncation toward zero. *)
Definition trunc (q : Q) : Z := Z.quot (Qnum q) (Z.pos (Qden q)).

(** [float(n)] *)
Definition of_int (n : Z) : Q := round64 (inject_Z n).

(** [a / b] on two ints: the correctly rounded quotient. *)
Definition truediv (a b : Z) : outcome Q :=
  if b =? 0 then Raise ZeroDivisionError
  else Ok (round64 (inject_Z a / inject_Z b)).

(** [x / b] for a float [x] and an int [b]. *)
Definition div_int (x : Q) (b : Z) : outcome Q :=
  if b =? 0 then Raise ZeroDivisionError
  else Ok (round64 (x / of_int b)).

Definition mul (x y : Q) : Q := round64 (x * y).
Definition add (x y : Q) : Q := round64 (x + y).
Definition sub (x y : Q) : Q := round64 (x - y).

Definition ltb (x y : Q) : bool :=
  match Qcompare x y with Lt => true | _ => false end.

(** The rational a finite hardware double denotes, to compare [round64]
    with the machine's own arithmetic. *)
Definition of_binary64 (x : PrimFloat.float) : Q :=
  match FloatOps.Prim2SF x with
  | SpecFloat.S754_finite s m e =>
      ((if s then -1 else 1) * inject_Z (Z.pos m) * pow2 e)%Q
  | _ => 0%Q
  end.

End Float.

(** ** The encoder *)

Definition SYNC_MARKER : list byte := [Byte.xaa; Byte.x55].

(** "PSEQ" *)
Definition FSEQ_MAGIC : list byte := [Byte.x50; Byte.x53; Byte.x45; Byte.x51].

(** [to_mono(samples, n_channels)] *)
Definition to_mono (samples : list Z) (n_channels : Z) : outcome (list Z) :=
  if n_channels =? 1 then Ok samples
  else
    starts <- range3 0 (len samples) n_channels ;;
    mapM (fun i =>
            let chunk := slice samples i (i + n_channels) in
            floordiv (sum chunk) (len chunk))
         starts.

(** [min(32767, val)] then [max(-32768, ...)] then [int(...)] for a float
    [val]: Python's [min] and [max] return their first argument unless a
    later one is strictly smaller (larger). *)
Definition clamp_float (val : Q) : Z :=
  if Float.ltb val (inject_Z 32767) then
    if Float.ltb (inject_Z (-32768)) val then Float.trunc val else -32768
  else
    32767.

(** The same expression when [val] is an int. *)
Definition clamp_int (val : Z) : Z :=
  Z.max (-32768) (Z.min 32767 val).

(** [resample_linear(samples, src_rate, dst_rate)] *)
Definition resample_linear (samples : list Z) (src_rate dst_rate : Z)
  : outcome (list Z) :=
  if src_rate =? dst_rate then Ok samples
  else
    ratio <- Float.truediv src_rate dst_rate ;;
    out_len_f <- Float.truediv (len samples * dst_rate) src_rate ;;
    let out_len := Float.trunc out_len_f in
    mapM (fun i =>
            let src_pos := Float.mul (Float.of_int i) ratio in
            let idx := Float.trunc src_pos in
            let frac := Float.sub src_pos (Float.of_int idx) in
            if idx + 1 <? len samples then
              s0 <- index samples idx ;;
              s1 <- index samples (idx + 1) ;;
              let val :=
                Float.add
                  (Float.mul (Float.of_int s0) (Float.sub (Float.of_int 1) frac))
                  (Float.mul (Float.of_int s1) frac) in
              Ok (clamp_float val)
            else
              val <- index samples (Z.min idx (len samples - 1)) ;;
              Ok (clamp_int val))
         (range out_len).

(** The two bytes appended for one sample. *)
Definition sample_bytes (sample : Z) : list byte :=
  let sample := if sample <? 0 then sample + 65536 else sample in
  [byte.of_Z (Z.land (Z.shiftr sample 8) 255); byte.of_Z (Z.land sample 255)].

(** Body of the loop of [samples_to_frame_channels]: the frame at
    [frame_idx]. The inner [for sample in chunk] loop, which appends two
    bytes per sample in order, is the [flat_map]. *)
Definition encode_frame (samples : list Z) (samples_per_frame frame_idx : Z)
  : list byte :=
  let start := frame_idx * samples_per_frame in
  let end_ := start + samples_per_frame in
  let chunk := slice samples start end_ in
  let chunk :=
    if len chunk <? samples_per_frame
    then chunk ++ repeat 0 (Z.to_nat (samples_per_frame - len chunk))
    else chunk in
  SYNC_MARKER ++ flat_map sample_bytes chunk.

(** The [while] loop of [samples_to_frame_channels], from the state
    [(frame_idx, frames)]. *)
Fixpoint frame_loop (fuel : nat) (samples : list Z) (samples_per_frame : Z)
    (frame_idx : Z) (frames : list (list byte)) : outcome (list (list byte)) :=
  match fuel with
  | O => OutOfFuel
  | S fuel' =>
      if frame_idx * samples_per_frame <? len samples then
        frame_loop fuel' samples samples_per_frame (frame_idx + 1)
          (frames ++ [encode_frame samples samples_per_frame frame_idx])
      else Ok frames
  end.

(** [samples_to_frame_channels(samples, samples_per_frame)] *)
Definition samples_to_frame_channels (fuel : nat) (samples : list Z)
    (samples_per_frame : Z) : outcome (list (list byte)) :=
  frame_loop fuel samples samples_per_frame 0 [].

(** ** FSEQ v2 header codec *)

(** [struct.pack] of one little-endian unsigned integer of [width] bytes;
    a value outside the field's range raises [struct.error]. *)
Definition pack (width : nat) (v : Z) : outcome (list byte) :=
  if (0 <=? v) && (v <? 2 ^ (Z.of_nat width * 8))
  then Ok (le_split width v)
  else Raise StructError.

(** [struct.unpack] of one little-endian unsigned integer of [width] bytes;
    a buffer of another size raises [struct.error]. *)
Definition unpack (width : nat) (b : list byte) : outcome Z :=
  if Nat.eqb (length b) width then Ok (le_combine b) else Raise StructError.

(** [f.read(n)] on the unread rest of a file: the bytes returned and the
    rest left. *)
Definition read (n : nat) (f : list byte) : list byte * list byte :=
  (firstn n f, skipn n f).

(** The byte-string literals of the script. *)
Module Text.
Import String.
Local Open Scope string_scope.

Definition mf_code : list byte := list_byte_of_string "mf".
Definition sp_code : list byte := list_byte_of_string "sp".
Definition producer : list byte := list_byte_of_string "fpp-eavesdrop audio2fseq".
Definition merged : list byte := list_byte_of_string "merged".

End Text.

(** [build_variable_header(audio_filename)]; [basename] is
    [os.path.basename(audio_filename).encode("utf-8")]. *)
Definition build_variable_header (basename : list byte) : outcome (list byte) :=
  let mf_code := Text.mf_code in
  let mf_value := basename ++ [Byte.x00] in
  mf_len <- pack 2 (len mf_value) ;;
  let sp_code := Text.sp_code in
  let sp_value := Text.producer ++ [Byte.x00] in
  sp_len <- pack 2 (len sp_value) ;;
  Ok (mf_code ++ mf_len ++ mf_value ++ sp_code ++ sp_len ++ sp_value).

(** The dict returned by [read_fseq_header]; [version] is (major, minor). *)
Record FseqInfo : Type := {
  data_offset : Z;
  version : Z * Z;
  var_header_offset : Z;
  channel_count : Z;
  frame_count : Z;
  step_time : Z;
  flags : Z;
  compression : Z;
  comp_blocks : Z;
  sparse_ranges : Z
}.

(** The 32-byte fixed header as [write_fseq_v2] and [merge_into_fseq] both
    build it, from the four values that vary. *)
Definition fixed_header (channel_data_offset channels_per_frame frame_count
                         step_time_ms : Z) : outcome (list byte) :=
  let fixed_header_size := 32 in
  offset_b <- pack 2 channel_data_offset ;;
  minor_b <- pack 1 0 ;;
  major_b <- pack 1 2 ;;
  var_off_b <- pack 2 fixed_header_size ;;
  channels_b <- pack 4 channels_per_frame ;;
  frames_b <- pack 4 frame_count ;;
  step_b <- pack 1 step_time_ms ;;
  flags_b <- pack 1 0 ;;
  compression_b <- pack 1 0 ;;
  blocks_b <- pack 1 0 ;;
  sparse_b <- pack 1 0 ;;
  reserved_b <- pack 1 0 ;;
  unique_b <- pack 8 0 ;;
  Ok (FSEQ_MAGIC ++ offset_b ++ minor_b ++ major_b ++ var_off_b ++ channels_b
        ++ frames_b ++ step_b ++ flags_b ++ compression_b ++ blocks_b
        ++ sparse_b ++ reserved_b ++ unique_b).

(** The same layout with every field of the header supplied by the caller
    (the codec of specification section 4.3); [fixed_header] is its
    instance at version 2.0, variable header at 32 and no compression. *)
Definition encodeFixedHeader (h : FseqInfo) : outcome (list byte) :=
  offset_b <- pack 2 (data_offset h) ;;
  minor_b <- pack 1 (snd (version h)) ;;
  major_b <- pack 1 (fst (version h)) ;;
  var_off_b <- pack 2 (var_header_offset h) ;;
  channels_b <- pack 4 (channel_count h) ;;
  frames_b <- pack 4 (frame_count h) ;;
  step_b <- pack 1 (step_time h) ;;
  flags_b <- pack 1 (flags h) ;;
  compression_b <- pack 1 (compression h) ;;
  blocks_b <- pack 1 (comp_blocks h) ;;
  sparse_b <- pack 1 (sparse_ranges h) ;;
  reserved_b <- pack 1 0 ;;
  unique_b <- pack 8 0 ;;
  Ok (FSEQ_MAGIC ++ offset_b ++ minor_b ++ major_b ++ var_off_b ++ channels_b
        ++ frames_b ++ step_b ++ flags_b ++ compression_b ++ blocks_b
        ++ sparse_b ++ reserved_b ++ unique_b).

(** [read_fseq_header(path)] on the contents of the file at [path]. *)
Definition read_fseq_header (file : list byte) : outcome FseqInfo :=
  let '(magic, f) := read 4 file in
  if list_eq_dec Byte.byte_eq_dec magic FSEQ_MAGIC then
    let '(b, f) := read 2 f in data_offset <- unpack 2 b ;;
    let '(b, f) := read 1 f in minor_ver <- unpack 1 b ;;
    let '(b, f) := read 1 f in major_ver <- unpack 1 b ;;
    let '(b, f) := read 2 f in var_header_offset <- unpack 2 b ;;
    let '(b, f) := read 4 f in channel_count <- unpack 4 b ;;
    let '(b, f) := read 4 f in frame_count <- unpack 4 b ;;
    let '(b, f) := read 1 f in step_time <- unpack 1 b ;;
    let '(b, f) := read 1 f in flags <- unpack 1 b ;;
    let '(b, f) := read 1 f in compression <- unpack 1 b ;;
    let '(b, f) := read 1 f in comp_blocks <- unpack 1 b ;;
    let '(b, f) := read 1 f in sparse_ranges <- unpack 1 b ;;
    Ok {| data_offset := data_offset;
          version := (major_ver, minor_ver);
          var_header_offset := var_header_offset;
          channel_count := channel_count;
          frame_count := frame_count;
          step_time := step_time;
          flags := flags;
          compression := compression;
          comp_blocks := comp_blocks;
          sparse_ranges := sparse_ranges |}
  else Raise ValueError.

(** ** Standalone writer *)

(** What a call that writes a file leaves behind: the bytes written to the
    output path ([None] when the file was never opened) and the value
    returned or exception raised. *)
Record Written (A : Type) : Type := {
  file : option (list byte);
  result : outcome A
}.
Arguments file {A} w.
Arguments result {A} w.

(** The frame loop of [write_fseq_v2]; [f] is what the file holds so far. *)
Fixpoint write_frames (frames : list (list byte)) (channels_per_frame : Z)
    (f : list byte) : list byte * outcome unit :=
  match frames with
  | [] => (f, Ok tt)
  | frame :: rest =>
      if len frame =? channels_per_frame
      then write_frames rest channels_per_frame (f ++ frame)
      else (f, Raise AssertionError)
  end.

(** [write_fseq_v2(path, frames, channels_per_frame, step_time_ms,
    variable_header)] *)
Definition write_fseq_v2 (frames : list (list byte))
    (channels_per_frame step_time_ms : Z) (variable_header : list byte)
  : Written Z :=
  let frame_count := len frames in
  let fixed_header_size := 32 in
  let var_header_size := len variable_header in
  let channel_data_offset := fixed_header_size + var_header_size in
  let padding := (4 - channel_data_offset mod 4) mod 4 in
  let channel_data_offset := channel_data_offset + padding in
  match fixed_header channel_data_offset channels_per_frame frame_count
          step_time_ms with
  | Ok header =>
      if len header =? 32 then
        let f := header ++ variable_header in
        let f := if 0 <? padding then f ++ zeros padding else f in
        let '(f, r) := write_frames frames channels_per_frame f in
        {| file := Some f;
           result :=
             _ <- r ;;
             Ok (channel_data_offset + frame_count * channels_per_frame) |}
      else {| file := None; result := Raise AssertionError |}
  | Raise e => {| file := None; result := Raise e |}
  | OutOfFuel => {| file := None; result := OutOfFuel |}
  end.

(** ** Merger *)

(** Body of the row loop of [merge_into_fseq]. *)
Definition merge_row (light_channel_count light_frame_count : Z)
    (light_data : list byte) (audio_frames : list (list byte))
    (audio_channels_per_frame start_channel total_channels frame_i : Z)
  : outcome (list byte) :=
  let audio_frame_count := len audio_frames in
  let frame := zeros total_channels in
  let frame :=
    if frame_i <? light_frame_count then
      let light_start := frame_i * light_channel_count in
      let light_end := light_start + light_channel_count in
      if light_end <=? len light_data
      then slice_assign frame 0 light_channel_count
             (slice light_data light_start light_end)
      else frame
    else frame in
  if frame_i <? audio_frame_count then
    audio_data <- index audio_frames frame_i ;;
    Ok (slice_assign frame start_channel
          (start_channel + audio_channels_per_frame) audio_data)
  else Ok frame.

(** The rows [merge_into_fseq] writes, in frame order. *)
Definition merge_rows (light_channel_count light_frame_count : Z)
    (light_data : list byte) (audio_frames : list (list byte))
    (audio_channels_per_frame start_channel : Z) : outcome (list (list byte)) :=
  let total_frames := Z.max light_frame_count (len audio_frames) in
  let total_channels :=
    Z.max light_channel_count (start_channel + audio_channels_per_frame) in
  mapM (merge_row light_channel_count light_frame_count light_data audio_frames
          audio_channels_per_frame start_channel total_channels)
       (range total_frames).

(** [merge_into_fseq(audio_frames, audio_channels_per_frame, merge_path,
    output_path, start_channel)]; [merge_file] is the contents of the file
    at [merge_path]. *)
Definition merge_into_fseq (audio_frames : list (list byte))
    (audio_channels_per_frame : Z) (merge_file : list byte) (start_channel : Z)
  : Written (Z * Z * Z) :=
  let prepared :=
    info <- read_fseq_header merge_file ;;
    if negb (compression info =? 0) then Raise (SystemExit 1)
    else if negb (fst (version info) =? 2) then Raise (SystemExit 1)
    else
      let light_channel_count := channel_count info in
      let light_frame_count := frame_count info in
      let audio_frame_count := len audio_frames in
      let total_frames := Z.max light_frame_count audio_frame_count in
      let total_channels :=
        Z.max light_channel_count (start_channel + audio_channels_per_frame) in
      let light_data := slice_from merge_file (data_offset info) in
      var_header <- build_variable_header Text.merged ;;
      let fixed_header_size := 32 in
      let var_header_size := len var_header in
      let channel_data_offset := fixed_header_size + var_header_size in
      let padding := (4 - channel_data_offset mod 4) mod 4 in
      let channel_data_offset := channel_data_offset + padding in
      header <- fixed_header channel_data_offset total_channels total_frames
                  (step_time info) ;;
      Ok (info, light_data, var_header, padding, channel_data_offset, header)
  in
  match prepared with
  | Ok (info, light_data, var_header, padding, channel_data_offset, header) =>
      let total_frames := Z.max (frame_count info) (len audio_frames) in
      let total_channels :=
        Z.max (channel_count info) (start_channel + audio_channels_per_frame) in
      let f := header ++ var_header in
      let f := if 0 <? padding then f ++ zeros padding else f in
      match merge_rows (channel_count info) (frame_count info) light_data
              audio_frames audio_channels_per_frame start_channel with
      | Ok rows =>
          {| file := Some (f ++ concat rows);
             result :=
               Ok (channel_data_offset + total_frames * total_channels,
                   total_channels, total_frames) |}
      | Raise e => {| file := Some f; result := Raise e |}
      | OutOfFuel => {| file := Some f; result := OutOfFuel |}
      end
  | Raise e => {| file := None; result := Raise e |}
  | OutOfFuel => {| file := None; result := OutOfFuel |}
  end.

(** ** Driver *)

(** The parsed command line; [input] is the UTF-8 base name of the input
    path and [merge] the contents of the file named by [--merge]. *)
Record Args : Type := {
  input : list byte;
  fps : Z;
  arg_step_time : option Z;
  sample_rate : Z;
  merge : option (list byte);
  start_channel : Z;
  stereo : bool
}.

(** What [read_audio] returns: 16-bit samples, sample rate, channel count. *)
Record Audio : Type := {
  samples : list Z;
  src_rate : Z;
  n_channels : Z
}.

(** The values [main] holds once the frames are encoded. *)
Record Encoded : Type := {
  frames : list (list byte);
  step_time_ms : Z;
  samples_per_frame : Z;
  channels_per_frame : Z;
  total_frames : Z
}.

(** "Calculate step time" in [main]. *)
Definition main_step_time (args : Args) : outcome Z :=
  match arg_step_time args with
  | Some s => Ok s
  | None => floordiv 1000 (fps args)
  end.

(** "Calculate frame parameters": [int(target_rate * step_time_ms / 1000)]. *)
Definition main_samples_per_frame (target_rate step_time_ms : Z) : outcome Z :=
  x <- Float.truediv (target_rate * step_time_ms) 1000 ;;
  Ok (Float.trunc x).

(** [main] from the step-time computation to the call of
    [samples_to_frame_channels]. *)
Definition main_encode (fuel : nat) (args : Args) (audio : Audio)
  : outcome Encoded :=
  step_time_ms <- main_step_time args ;;
  _fps <- Float.truediv 1000 step_time_ms ;;
  let target_rate := sample_rate args in
  let samples := samples audio in
  let src_rate := src_rate audio in
  let n_channels := n_channels audio in
  per_channel <- Float.truediv (len samples) n_channels ;;
  _duration_sec <- Float.div_int per_channel src_rate ;;
  _per_channel_count <- floordiv (len samples) n_channels ;;
  '(samples, n_channels) <-
    (if negb (stereo args) || (n_channels =? 1)
     then mono <- to_mono samples n_channels ;; Ok (mono, 1)
     else Ok (samples, n_channels)) ;;
  samples <-
    (if negb (src_rate =? target_rate)
     then resample_linear samples src_rate target_rate
     else Ok samples) ;;
  samples_per_frame <- main_samples_per_frame target_rate step_time_ms ;;
  let channels_per_frame := 2 + samples_per_frame * 2 * n_channels in
  total_frames <- floordiv (len samples + samples_per_frame - 1) samples_per_frame ;;
  frames <- samples_to_frame_channels fuel samples samples_per_frame ;;
  Ok {| frames := frames;
        step_time_ms := step_time_ms;
        samples_per_frame := samples_per_frame;
        channels_per_frame := channels_per_frame;
        total_frames := total_frames |}.

(** [main], up to the file it writes: merged into [--merge] when given,
    standalone otherwise. The value is the reported total size. The
    configuration hint and the [--verbose] dump printed afterwards are left
    out. *)
Definition main (fuel : nat) (args : Args) (audio : Audio) : Written Z :=
  match main_encode fuel args audio with
  | Ok enc =>
      match merge args with
      | Some merge_file =>
          let w := merge_into_fseq (frames enc) (channels_per_frame enc)
                     merge_file (start_channel args) in
          {| file := file w;
             result := '(total_size, _, _) <- result w ;; Ok total_size |}
      | None =>
          match build_variable_header (input args) with
          | Ok var_header =>
              write_fseq_v2 (frames enc) (channels_per_frame enc)
                (step_time_ms enc) var_header
          | Raise e => {| file := None; result := Raise e |}
          | OutOfFuel => {| file := None; result := OutOfFuel |}
          end
      end
  | Raise e => {| file := None; result := Raise e |}
  | OutOfFuel => {| file := None; result := OutOfFuel |}
  end.

(** ** Reference values used by the statements *)

(** The number of frames: [ceil(total / samples_per_frame)], as [main]
    computes it. *)
Definition frame_count_of (total samples_per_frame : Z) : Z :=
  (total + samples_per_frame - 1) / samples_per_frame.

(** [python3 audio2fseq.py a.wav -o out.fseq] with the default options. *)
Definition default_args : Args :=
  {| input := [Byte.x61; Byte.x2e; Byte.x77; Byte.x61; Byte.x76];
     fps := 40;
     arg_step_time := None;
     sample_rate := 44100;
     merge := None;
     start_channel := 500000;
     stereo := false |}.

(** The same command line with [--stereo]. *)
Definition stereo_args : Args :=
  {| input := input default_args;
     fps := 40;
     arg_step_time := None;
     sample_rate := 44100;
     merge := None;
     start_channel := 500000;
     stereo := true |}.

(** One second of silence, 44100 Hz mono. *)
Definition silence_1s : Audio :=
  {| samples := repeat 0 (Z.to_nat 44100); src_rate := 44100; n_channels := 1 |}.

(** One stereo sample pair at 44100 Hz. *)
Definition stereo_pair : Audio :=
  {| samples := [0; 0]; src_rate := 44100; n_channels := 2 |}.

(** A frame of silence for 1102 samples per frame. *)
Definition silent_frame : list byte := SYNC_MARKER ++ zeros 2204.

(** The [k]-th group of [n] consecutive interleaved samples. *)
Definition group (samples : list Z) (n k : Z) : list Z :=
  firstn (Z.to_nat n) (skipn (Z.to_nat (k * n)) samples).

(** A header whose fields fit the widths of the fixed layout. *)
Definition valid_header (h : FseqInfo) : Prop :=
  0 <= data_offset h < 2 ^ 16
  /\ 0 <= fst (version h) < 2 ^ 8
  /\ 0 <= snd (version h) < 2 ^ 8
  /\ 0 <= var_header_offset h < 2 ^ 16
  /\ 0 <= channel_count h < 2 ^ 32
  /\ 0 <= frame_count h < 2 ^ 32
  /\ 0 <= step_time h < 2 ^ 8
  /\ 0 <= flags h < 2 ^ 8
  /\ 0 <= compression h < 2 ^ 8
  /\ 0 <= comp_blocks h < 2 ^ 8
  /\ 0 <= sparse_ranges h < 2 ^ 8.

(** The header [write_fseq_v2] and [merge_into_fseq] write. *)
Definition written_header (channel_data_offset channels_per_frame frame_count
                           step_time_ms : Z) : FseqInfo :=
  {| data_offset := channel_data_offset;
     version := (2, 0);
     var_header_offset := 32;
     channel_count := channels_per_frame;
     frame_count := frame_count;
     step_time := step_time_ms;
     flags := 0;
     compression := 0;
     comp_blocks := 0;
     sparse_ranges := 0 |}.

(** *** The merged grid *)

Section Grid.
Variables (light_channel_count light_frame_count : Z).
Variable light_data : list byte.
Variable audio_frames : list (list byte).
Variables (audio_channels_per_frame start_channel : Z).

Definition merged_total_frames : Z :=
  Z.max light_frame_count (len audio_frames).

Definition merged_total_channels : Z :=
  Z.max light_channel_count (start_channel + audio_channels_per_frame).

(** Channel [c] of frame [f] lies in the span the audio frame occupies. *)
Definition in_audio (f c : Z) : bool :=
  (f <? len audio_frames) && (start_channel <=? c)
  && (c <? start_channel + audio_channels_per_frame).

Definition audio_byte (f c : Z) : byte :=
  nth (Z.to_nat (c - start_channel)) (nth (Z.to_nat f) audio_frames [])
      Byte.x00.

Definition light_byte (f c : Z) : byte :=
  nth (Z.to_nat (f * light_channel_count + c)) light_data Byte.x00.

(** Row [f] of the light grid lies completely within the bytes read. *)
Definition light_row_available (f : Z) : bool :=
  f * light_channel_count + light_channel_count <=? len light_data.

(** The grid of the specification: audio where the audio frame lies,
    else light where the light grid lies, else zero. *)
Definition grid_byte (f c : Z) : byte :=
  if in_audio f c then audio_byte f c
  else if (f <? light_frame_count) && (c <? light_channel_count)
       then light_byte f c
       else Byte.x00.

Definition grid_row (f : Z) : list byte :=
  map (grid_byte f) (range merged_total_channels).

Definition grid : list (list byte) :=
  map grid_row (range merged_total_frames).

(** The same grid when light rows that are not completely available are
    left zero. *)
Definition merged_byte (f c : Z) : byte :=
  if in_audio f c then audio_byte f c
  else if (f <? light_frame_count) && light_row_available f
          && (c <? light_channel_count)
       then light_byte f c
       else Byte.x00.

Definition merged_row (f : Z) : list byte :=
  map (merged_byte f) (range merged_total_channels).

Definition merged_grid : list (list byte) :=
  map merged_row (range merged_total_frames).
End Grid.

(** *** Sample files *)

(** A light sequence file: the fixed header alone (data at offset 32),
    then [data]. *)
Definition light_file (channels frames : Z) (data : list byte) : list byte :=
  match fixed_header 32 channels frames 25 with
  | Ok header => header ++ data
  | _ => []
  end.

(** 4 channels x 10 frames, every light byte 0x11. *)
Definition light_4x10 : list byte :=
  light_file 4 10 (repeat Byte.x11 40).

(** 15 audio frames of 6 bytes. *)
Definition audio_6x15 : list (list byte) :=
  repeat [Byte.xaa; Byte.x55; Byte.x01; Byte.x02; Byte.x03; Byte.x04] 15.

(** A file that declares 4 channels x 2 frames and holds one row only. *)
Definition truncated_4x2 : list byte :=
  light_file 4 2 [Byte.x01; Byte.x02; Byte.x03; Byte.x04].

(** A signed 16-bit sample value. *)
Definition int16 (s : Z) : Prop := -32768 <= s <= 32767.

(** A computation that returns normally or raises [ZeroDivisionError]. *)
Definition ok_or_zero_division {A : Type} (m : outcome A) : Prop :=
  (exists a, m = Ok a) \/ m = Raise ZeroDivisionError.

(** [--step-time -25]: a negative step time, so a negative frame size. *)
Definition negative_step_args : Args :=
  {| input := input default_args;
     fps := 40;
     arg_step_time := Some (-25);
     sample_rate := 44100;
     merge := None;
     start_channel := 500000;
     stereo := false |}.

(** [--sample-rate 10]: ten samples per second, none per 25 ms frame. *)
Definition low_rate_args : Args :=
  {| input := input default_args;
     fps := 40;
     arg_step_time := None;
     sample_rate := 10;
     merge := None;
     start_channel := 500000;
     stereo := false |}.

(** An input file without samples. *)
Definition no_audio : Audio :=
  {| samples := []; src_rate := 44100; n_channels := 1 |}.

(** *** Reading frames back *)

(** One sample as the module docstring lays it out: high byte, low byte,
    read as a signed 16-bit value. *)
Definition decode_sample (hi lo : byte) : Z :=
  let u := byte.unsigned hi * 256 + byte.unsigned lo in
  if u <? 32768 then u else u - 65536.

(** The samples of a PCM payload, two bytes each. *)
Fixpoint decode_pcm (payload : list byte) : list Z :=
  match payload with
  | hi :: lo :: rest => decode_sample hi lo :: decode_pcm rest
  | _ => []
  end.

(** The samples a frame carries after its two marker bytes. *)
Definition decode_frame (frame : list byte) : list Z :=
  decode_pcm (skipn 2 frame).

(** The chunk of frame [k] after padding, as [encode_frame] builds it. *)
Definition padded_chunk (samples : list Z) (spf k : Z) : list Z :=
  let chunk := slice samples (k * spf) (k * spf + spf) in
  if len chunk <? spf
  then chunk ++ repeat 0 (Z.to_nat (spf - len chunk))
  else chunk.

(** The channel-data offset [write_fseq_v2] computes for a variable header
    of [n] bytes: [32 + n] rounded up to a multiple of 4. *)
Definition channel_data_offset_of (n : Z) : Z :=
  32 + n + (4 - (32 + n) mod 4) mod 4.


(** *** Small runs of the driver *)

(** Three mono samples at the target rate. *)
Definition three_samples : Audio :=
  {| samples := [100; -200; 300]; src_rate := 44100; n_channels := 1 |}.

(** What [main] holds for [three_samples] with the default options: one
    frame, the three samples padded to 1102. *)
Definition three_samples_encoded : Encoded :=
  {| frames := [encode_frame [100; -200; 300] 1102 0];
     step_time_ms := 25;
     samples_per_frame := 1102;
     channels_per_frame := 2206;
     total_frames := 1 |}.

(** [--fps 2]: a step time of 500 ms. *)
Definition slow_args : Args :=
  {| input := input default_args;
     fps := 2;
     arg_step_time := None;
     sample_rate := 44100;
     merge := None;
     start_channel := 500000;
     stereo := false |}.

(** ** WAV reader *)

(** [read_wav] raises two exceptions of its own: [ValueError] (an
    unsupported sample width, or [frombytes] on a length that is no
    multiple of the item size) and the [OverflowError] of an [array] item
    outside the range of its type code. *)
Module Wav.

Inductive exn : Type :=
| ValueError
| OverflowError.

Definition result (A : Type) : Type := (exn + A)%type.

Definition bind {A B : Type} (m : result A) (k : A -> result B) : result B :=
  match m with
  | inr a => k a
  | inl e => inl e
  end.

(** A loop that appends the value of [f] at every element, in order. *)
Fixpoint mapM {A B : Type} (f : A -> result B) (xs : list A)
  : result (list B) :=
  match xs with
  | [] => inr []
  | x :: rest =>
      bind (f x) (fun y => bind (mapM f rest) (fun ys => inr (y :: ys)))
  end.

End Wav.

(** What [wave.open(path, "rb")] reports: the header fields and
    [readframes(getnframes())], the sample data in file order (the order
    [wave] returns on a little-endian host). *)
Record WaveFile : Type := {
  getnchannels : Z;
  getsampwidth : Z;
  getframerate : Z;
  readframes : list byte
}.

(** The value of the [bits]-bit two's complement pattern [u]. *)
Definition signed (bits u : Z) : Z :=
  if u <? 2 ^ (bits - 1) then u else u - 2 ^ bits.

(** Storing [v] as an item of an [array] of signed [bits]-bit integers
    (type codes ["b"], ["h"], ["i"]: 8, 16, 32 bits). *)
Definition array_item (bits v : Z) : Wav.result Z :=
  if (- 2 ^ (bits - 1) <=? v) && (v <? 2 ^ (bits - 1))
  then inr v
  else inl Wav.OverflowError.

(** [array.array(typecode, values)] *)
Definition array_of (bits : Z) (values : list Z) : Wav.result (list Z) :=
  Wav.mapM (array_item bits) values.

(** [array.frombytes(raw)] on an empty array with items of [size] bytes,
    read in the byte order of a little-endian host. *)
Definition frombytes (size : Z) (raw : list byte) : Wav.result (list Z) :=
  if len raw mod size =? 0
  then inr (map (fun k =>
                   signed (8 * size)
                     (le_combine (slice raw (k * size) (k * size + size))))
                (range (len raw / size)))
  else inl Wav.ValueError.

(** [int.from_bytes(b, byteorder="little", signed=True)] *)
Definition from_bytes_signed (b : list byte) : Z :=
  match b with
  | [] => 0
  | _ => signed (8 * len b) (le_combine b)
  end.

(** [read_wav(path)], from the opened file on. *)
Definition read_wav (wf : WaveFile) : Wav.result (list Z * Z * Z * Z) :=
  let n_channels := getnchannels wf in
  let sample_width := getsampwidth wf in
  let sample_rate := getframerate wf in
  let raw := readframes wf in
  Wav.bind
    (if sample_width =? 1 then
       Wav.bind (array_of 8 (map (fun b => byte.unsigned b - 128) raw))
         (fun samples => array_of 16 (map (fun s => s * 256) samples))
     else if sample_width =? 2 then
       frombytes 2 raw
     else if sample_width =? 3 then
       match range3 0 (len raw) 3 with
       | Ok starts =>
           Wav.mapM
             (fun i =>
                let val := from_bytes_signed (slice raw i (i + 3)) in
                array_item 16 (Z.shiftr val 8))
             starts
       | _ => inl Wav.ValueError
       end
     else if sample_width =? 4 then
       Wav.bind (frombytes 4 raw)
         (fun tmp => array_of 16 (map (fun s => Z.shiftr s 16) tmp))
     else inl Wav.ValueError)
    (fun samples => inr (samples, sample_rate, n_channels, 2)).

(** The 16-bit value of a low and a high byte. *)
Definition int16_of (lo hi : byte) : Z :=
  signed 16 (byte.unsigned lo + 256 * byte.unsigned hi).

(** Sample data of each width, sample by sample. *)
Definition bytes_of_pair (p : byte * byte) : list byte := [fst p; snd p].

Definition bytes_of_triple (t : byte * byte * byte) : list byte :=
  let '(b0, b1, b2) := t in [b0; b1; b2].

Definition bytes_of_quad (q : byte * byte * byte * byte) : list byte :=
  let '(b0, b1, b2, b3) := q in [b0; b1; b2; b3].

(** An 8-bit, a 16-bit, a 24-bit and a 32-bit file. *)
Definition wav8 : WaveFile :=
  {| getnchannels := 1; getsampwidth := 1; getframerate := 8000;
     readframes := [Byte.x00; Byte.x80; Byte.xff] |}.

Definition wav16 : WaveFile :=
  {| getnchannels := 2; getsampwidth := 2; getframerate := 44100;
     readframes := [Byte.x34; Byte.x12; Byte.x00; Byte.x80] |}.

Definition wav24 : WaveFile :=
  {| getnchannels := 1; getsampwidth := 3; getframerate := 48000;
     readframes := [Byte.x56; Byte.x34; Byte.x12; Byte.xff; Byte.xff] |}.

Definition wav32 : WaveFile :=
  {| getnchannels := 1; getsampwidth := 4; getframerate := 96000;
     readframes := [Byte.x78; Byte.x56; Byte.x34; Byte.x12] |}.

(** A 16-bit file with an odd number of data bytes. *)
Definition wav16_odd : WaveFile :=
  {| getnchannels := 1; getsampwidth := 2; getframerate := 44100;
     readframes := [Byte.x34; Byte.x12; Byte.x00] |}.

(** A 40-bit file. *)
Definition wav40 : WaveFile :=
  {| getnchannels := 1; getsampwidth := 5; getframerate := 44100;
     readframes := [] |}.

(** The 16-bit value [read_wav] keeps of a sample of each width. *)
Definition value_of_byte (b : byte) : Z := (byte.unsigned b - 128) * 256.

Definition value_of_pair (p : byte * byte) : Z := int16_of (fst p) (snd p).

Definition value_of_triple (t : byte * byte * byte) : Z :=
  let '(_, b1, b2) := t in int16_of b1 b2.

Definition value_of_quad (q : byte * byte * byte * byte) : Z :=
  let '(_, _, b2, b3) := q in int16_of b2 b3.

(** The two most significant bytes of a sample, high byte first. *)
Definition top_of_pair (p : byte * byte) : list byte := [snd p; fst p].

Definition top_of_triple (t : byte * byte * byte) : list byte :=
  let '(_, b1, b2) := t in [b2; b1].

Definition top_of_quad (q : byte * byte * byte * byte) : list byte :=
  let '(_, _, b2, b3) := q in [b3; b2].

(** A file of the given sample width holding [data]. *)
Definition wave_file (nch width rate : Z) (data : list byte) : WaveFile :=
  {| getnchannels := nch; getsampwidth := width; getframerate := rate;
     readframes := data |}.

(** The [--verbose] dump at the end of [main]: [frames[0][:32]]. *)
Definition main_verbose_dump (frames : list (list byte))
  : outcome (list byte) :=
  first <- index frames 0 ;;
  Ok (slice first 0 32).
(** * Properties *)

(** A boolean integer test whose outcome follows from the context by linear
    arithmetic is replaced by that outcome. *)
Ltac test_reflect E :=
  first [ apply Z.eqb_eq in E | apply Z.eqb_neq in E
        | apply Z.ltb_lt in E | apply Z.ltb_ge in E
        | apply Z.leb_le in E | apply Z.leb_gt in E ].

Ltac test_true c :=
  let E := fresh "E" in
  destruct c eqn:E; [| exfalso; test_reflect E; lia ].

Ltac test_false c :=
  let E := fresh "E" in
  destruct c eqn:E; [ exfalso; test_reflect E; lia |].

(** ** Lists, slices and loops *)

Lemma len_nonneg {A : Type} (l : list A) : 0 <= len l.
Proof. unfold len. lia. Qed.

Lemma len_app {A : Type} (l1 l2 : list A) : len (l1 ++ l2) = len l1 + len l2.
Proof. unfold len. rewrite length_app. lia. Qed.

Lemma len_repeat {A : Type} (x : A) (n : nat) : len (repeat x n) = Z.of_nat n.
Proof. unfold len. now rewrite repeat_length. Qed.

Lemma len_zeros (n : Z) : 0 <= n -> len (zeros n) = n.
Proof. intros Hn. unfold zeros. rewrite len_repeat. lia. Qed.

Lemma slice_bound_nonneg (n i : Z) : 0 <= i -> slice_bound n i = Z.min i n.
Proof.
  intros Hi. unfold slice_bound.
  destruct (i <? 0) eqn:E; [apply Z.ltb_lt in E; lia | reflexivity].
Qed.

Lemma slice_nonneg {A : Type} (l : list A) (a b : Z) :
  0 <= a -> 0 <= b ->
  slice l a b =
  firstn (Z.to_nat (Z.min b (len l) - Z.min a (len l)))
         (skipn (Z.to_nat (Z.min a (len l))) l).
Proof.
  intros Ha Hb. unfold slice. now rewrite !slice_bound_nonneg.
Qed.

Lemma len_slice_le {A : Type} (l : list A) (a b : Z) :
  0 <= a -> a <= b -> len (slice l a b) <= b - a.
Proof.
  intros Ha Hab. rewrite slice_nonneg by lia. unfold len.
  rewrite length_firstn, length_skipn. pose proof (len_nonneg l). unfold len in *.
  lia.
Qed.

Lemma len_slice_inside {A : Type} (l : list A) (a b : Z) :
  0 <= a -> a <= b -> b <= len l -> len (slice l a b) = b - a.
Proof.
  intros Ha Hab Hb. rewrite slice_nonneg by lia. unfold len in *.
  rewrite length_firstn, length_skipn. lia.
Qed.

Lemma slice_inside {A : Type} (l : list A) (a b : Z) :
  0 <= a -> a <= b -> b <= len l ->
  slice l a b = firstn (Z.to_nat (b - a)) (skipn (Z.to_nat a) l).
Proof.
  intros Ha Hab Hb. rewrite slice_nonneg by lia.
  now rewrite !Z.min_l by lia.
Qed.

Lemma slice_assign_inside {A : Type} (l : list A) (a b : Z) (data : list A) :
  0 <= a -> a <= b -> b <= len l ->
  slice_assign l a b data =
  firstn (Z.to_nat a) l ++ data ++ skipn (Z.to_nat b) l.
Proof.
  intros Ha Hab Hb. unfold slice_assign.
  rewrite !slice_bound_nonneg by lia.
  rewrite (Z.min_l a), (Z.min_l b), Z.max_r by lia. reflexivity.
Qed.

Lemma len_slice_assign_inside {A : Type} (l : list A) (a b : Z) (data : list A) :
  0 <= a -> a <= b -> b <= len l -> len data = b - a ->
  len (slice_assign l a b data) = len l.
Proof.
  intros Ha Hab Hb Hd. rewrite slice_assign_inside by assumption.
  rewrite !len_app, Hd. unfold len in *.
  rewrite length_firstn, length_skipn. lia.
Qed.

Lemma nth_slice_assign_inside {A : Type} (l : list A) (a b c : Z)
    (data : list A) (d : A) :
  0 <= a -> a <= b -> b <= len l -> len data = b - a -> 0 <= c ->
  nth (Z.to_nat c) (slice_assign l a b data) d =
  if (a <=? c) && (c <? b) then nth (Z.to_nat (c - a)) data d
  else nth (Z.to_nat c) l d.
Proof.
  intros Ha Hab Hb Hd Hc. rewrite slice_assign_inside by assumption.
  unfold len in *.
  destruct (a <=? c) eqn:E1; cbn [andb].
  - apply Z.leb_le in E1.
    rewrite app_nth2 by (rewrite length_firstn; lia).
    rewrite length_firstn.
    replace (Z.to_nat c - Nat.min (Z.to_nat a) (length l))%nat
      with (Z.to_nat (c - a)) by lia.
    destruct (c <? b) eqn:E2.
    + apply Z.ltb_lt in E2. apply app_nth1. lia.
    + apply Z.ltb_ge in E2. rewrite app_nth2 by lia.
      rewrite nth_skipn. f_equal. lia.
  - apply Z.leb_gt in E1.
    rewrite app_nth1 by (rewrite length_firstn; lia).
    rewrite nth_firstn.
    destruct (Nat.ltb_spec (Z.to_nat c) (Z.to_nat a)); [reflexivity | lia].
Qed.

Lemma nth_slice_inside {A : Type} (l : list A) (a b c : Z) (d : A) :
  0 <= a -> a <= b -> b <= len l -> 0 <= c < b - a ->
  nth (Z.to_nat c) (slice l a b) d = nth (Z.to_nat (a + c)) l d.
Proof.
  intros Ha Hab Hb Hc. rewrite slice_inside by assumption.
  rewrite nth_firstn.
  destruct (Nat.ltb_spec (Z.to_nat c) (Z.to_nat (b - a))); [|lia].
  rewrite nth_skipn. f_equal. lia.
Qed.

Lemma range_length (n : Z) : length (range n) = Z.to_nat n.
Proof. unfold range. now rewrite length_map, length_seq. Qed.

Lemma range_nth_error (n : Z) (i : nat) :
  (i < Z.to_nat n)%nat -> nth_error (range n) i = Some (Z.of_nat i).
Proof.
  intros Hi. unfold range. rewrite nth_error_map, nth_error_seq.
  destruct (Nat.ltb_spec i (Z.to_nat n)); [reflexivity | lia].
Qed.

Lemma range_In (n x : Z) : In x (range n) -> 0 <= x < n.
Proof.
  unfold range. intros H. apply in_map_iff in H.
  destruct H as [k [<- Hk]]. apply in_seq in Hk. lia.
Qed.

(** A loop whose body succeeds at every element succeeds, with the body's
    values in order. *)
Lemma mapM_map {A B : Type} (f : A -> outcome B) (g : A -> B) (xs : list A) :
  (forall x, In x xs -> f x = Ok (g x)) -> mapM f xs = Ok (map g xs).
Proof.
  induction xs as [|x xs IH]; intros H; cbn [mapM map]; [reflexivity|].
  rewrite (H x (or_introl eq_refl)). cbn [bind].
  rewrite IH by (intros y Hy; apply H; now right). reflexivity.
Qed.

(** ** Frame encoder *)

Lemma sample_bytes_length (s : Z) : length (sample_bytes s) = 2%nat.
Proof. reflexivity. Qed.

Lemma flat_map_sample_bytes_length (chunk : list Z) :
  length (flat_map sample_bytes chunk) = (2 * length chunk)%nat.
Proof.
  induction chunk as [|s chunk IH]; [reflexivity|].
  cbn [flat_map]. rewrite length_app, sample_bytes_length, IH.
  cbn [length]. lia.
Qed.

(** Every frame holds the marker and two bytes for each of
    [samples_per_frame] samples, whatever the channel count of the samples. *)
Lemma encode_frame_length (samples : list Z) (samples_per_frame frame_idx : Z) :
  0 <= samples_per_frame -> 0 <= frame_idx ->
  len (encode_frame samples samples_per_frame frame_idx)
  = 2 + samples_per_frame * 2.
Proof.
  intros Hs Hi. unfold encode_frame.
  set (start := frame_idx * samples_per_frame).
  assert (Hstart : 0 <= start) by (subst start; nia).
  pose proof (len_slice_le samples start (start + samples_per_frame) Hstart
                ltac:(lia)) as Hle.
  set (chunk := slice samples start (start + samples_per_frame)) in *.
  rewrite len_app.
  assert (Hpad : len (if len chunk <? samples_per_frame
                      then chunk ++ repeat 0 (Z.to_nat (samples_per_frame - len chunk))
                      else chunk) = samples_per_frame).
  { destruct (len chunk <? samples_per_frame) eqn:E.
    - apply Z.ltb_lt in E. rewrite len_app, len_repeat. lia.
    - apply Z.ltb_ge in E. lia. }
  unfold len in *. rewrite flat_map_sample_bytes_length.
  cbn [SYNC_MARKER length]. lia.
Qed.

Lemma loop_guard (total spf k : Z) :
  1 <= spf -> (k * spf <? total) = (k <? frame_count_of total spf).
Proof.
  intros Hs. unfold frame_count_of.
  pose proof (Z.div_mod (total + spf - 1) spf ltac:(lia)) as Hd.
  pose proof (Z.mod_pos_bound (total + spf - 1) spf ltac:(lia)) as Hm.
  destruct (k * spf <? total) eqn:E1;
    destruct (k <? (total + spf - 1) / spf) eqn:E2; try reflexivity;
    rewrite ?Z.ltb_lt, ?Z.ltb_ge in *; nia.
Qed.

Lemma frame_loop_run (samples : list Z) (spf : Z) :
  1 <= spf ->
  forall (todo : nat) (k : Z) (acc : list (list byte)) (fuel : nat),
    0 <= k ->
    Z.of_nat todo = Z.max 0 (frame_count_of (len samples) spf - k) ->
    (todo < fuel)%nat ->
    frame_loop fuel samples spf k acc
    = Ok (acc ++ map (fun i => encode_frame samples spf (k + Z.of_nat i))
                     (seq 0 todo)).
Proof.
  intros Hs todo. induction todo as [|todo IH]; intros k acc fuel Hk Htodo Hfuel.
  - destruct fuel as [|fuel]; [lia|]. cbn [frame_loop seq map].
    rewrite loop_guard by assumption.
    destruct (k <? frame_count_of (len samples) spf) eqn:E.
    + apply Z.ltb_lt in E. lia.
    + now rewrite app_nil_r.
  - destruct fuel as [|fuel]; [lia|]. cbn [frame_loop].
    rewrite loop_guard by assumption.
    destruct (k <? frame_count_of (len samples) spf) eqn:E.
    + apply Z.ltb_lt in E.
      rewrite IH by lia.
      rewrite <- app_assoc. cbn [app seq map]. rewrite Z.add_0_r.
      do 3 f_equal. rewrite <- seq_shift, map_map.
      apply map_ext. intros i. f_equal. lia.
    + apply Z.ltb_ge in E. lia.
Qed.

(** With a positive frame size the encoder stops and returns the frames at
    indices [0 .. ceil(total / samples_per_frame) - 1]. *)
Lemma samples_to_frame_channels_run (samples : list Z) (spf : Z) (fuel : nat) :
  1 <= spf ->
  (Z.to_nat (frame_count_of (len samples) spf) < fuel)%nat ->
  samples_to_frame_channels fuel samples spf
  = Ok (map (encode_frame samples spf) (range (frame_count_of (len samples) spf))).
Proof.
  intros Hs Hfuel. unfold samples_to_frame_channels.
  rewrite (frame_loop_run samples spf Hs
             (Z.to_nat (frame_count_of (len samples) spf)) 0 [] fuel);
    [| lia | lia | assumption].
  cbn [app]. unfold range. rewrite map_map. reflexivity.
Qed.

Lemma frame_count_of_nonneg (total spf : Z) :
  0 <= total -> 1 <= spf -> 0 <= frame_count_of total spf.
Proof. intros. unfold frame_count_of. apply Z.div_pos; lia. Qed.

(** Without a positive frame size the loop makes no progress. *)
Lemma frame_loop_stuck (samples : list Z) (spf : Z) :
  spf <= 0 -> 0 < len samples ->
  forall (fuel : nat) (k : Z) (acc : list (list byte)),
    0 <= k -> frame_loop fuel samples spf k acc = OutOfFuel.
Proof.
  intros Hs Hl fuel. induction fuel as [|fuel IH]; intros k acc Hk;
    cbn [frame_loop]; [reflexivity|].
  destruct (k * spf <? len samples) eqn:E.
  - apply IH. lia.
  - apply Z.ltb_ge in E. nia.
Qed.

(** More fuel does not change a finished run. *)
Lemma frame_loop_more_fuel (samples : list Z) (spf : Z) (fuel1 fuel2 : nat) :
  (fuel1 <= fuel2)%nat ->
  forall (k : Z) (acc r : list (list byte)),
    frame_loop fuel1 samples spf k acc = Ok r ->
    frame_loop fuel2 samples spf k acc = Ok r.
Proof.
  revert fuel2. induction fuel1 as [|fuel1 IH]; intros fuel2 Hle k acc r H;
    cbn [frame_loop] in H; [discriminate|].
  destruct fuel2 as [|fuel2]; [lia|]. cbn [frame_loop].
  destruct (k * spf <? len samples); [|assumption].
  apply IH; [lia | assumption].
Qed.


(** The size assertion of the writer fires exactly when some frame does
    not have the declared width; otherwise all frames are written. *)
Lemma write_frames_cases (frames : list (list byte)) (cpf : Z) (f : list byte) :
  (Forall (fun frame => len frame = cpf) frames
   /\ write_frames frames cpf f = (f ++ concat frames, Ok tt))
  \/ (Exists (fun frame => len frame <> cpf) frames
      /\ snd (write_frames frames cpf f) = Raise AssertionError).
Proof.
  revert f. induction frames as [|frame rest IH]; intros f; cbn [write_frames].
  - left. split; [constructor | now rewrite app_nil_r].
  - destruct (len frame =? cpf) eqn:E.
    + apply Z.eqb_eq in E. destruct (IH (f ++ frame)) as [[HF HW]|[HE HW]].
      * left. split; [now constructor|].
        rewrite HW. cbn [concat]. now rewrite app_assoc.
      * right. split; [now apply Exists_cons_tl | exact HW].
    + apply Z.eqb_neq in E. right. split; [now apply Exists_cons_hd|].
      reflexivity.
Qed.

Lemma main_encode_more_fuel (fuel1 fuel2 : nat) (args : Args) (audio : Audio)
    (enc : Encoded) :
  (fuel1 <= fuel2)%nat ->
  main_encode fuel1 args audio = Ok enc ->
  main_encode fuel2 args audio = Ok enc.
Proof.
  intros Hle. unfold main_encode. cbv zeta.
  repeat match goal with
         | |- bind (samples_to_frame_channels _ _ _) _ = Ok _ -> _ => fail 1
         | |- bind ?m _ = Ok _ -> _ =>
             destruct m as [?x| |]; cbn [bind]; try discriminate
         | |- (match ?p with (_, _) => _ end) = Ok _ -> _ => destruct p
         end.
  unfold samples_to_frame_channels.
  match goal with
  | |- bind (frame_loop _ ?s ?n _ _) _ = _ -> _ =>
      destruct (frame_loop fuel1 s n 0 []) as [fr| |] eqn:E; cbn [bind];
      try discriminate;
      rewrite (frame_loop_more_fuel s n fuel1 fuel2 Hle 0 [] fr E)
  end.
  cbn [bind]. trivial.
Qed.

(** C9. For every sample list and every [samples_per_frame >= 1] the frame
    encoder stops (any fuel above the frame count is enough) and returns
    exactly [ceil(len(samples) / samples_per_frame)] frames, the least [n]
    with [len(samples) <= n * samples_per_frame]; an empty sample list gives
    no frame at all. Positivity is needed: with a frame size of zero or less
    and at least one sample the loop never stops, whatever the fuel. *)
Theorem frame_encoder_terminates (samples : list Z) (spf : Z) :
  1 <= spf ->
  let n := frame_count_of (len samples) spf in
  (len samples <= n * spf < len samples + spf)
  /\ (forall fuel, (Z.to_nat n < fuel)%nat ->
        exists frames,
          samples_to_frame_channels fuel samples spf = Ok frames
          /\ len frames = n)
  /\ (samples = [] -> samples_to_frame_channels 1 samples spf = Ok [])
  /\ (forall fuel bad,
        bad <= 0 -> samples <> [] ->
        samples_to_frame_channels fuel samples bad = OutOfFuel).
Proof.
  intros Hs n. pose proof (len_nonneg samples) as Hl.
  repeat split.
  - subst n. unfold frame_count_of.
    pose proof (Z.div_mod (len samples + spf - 1) spf ltac:(lia)).
    pose proof (Z.mod_pos_bound (len samples + spf - 1) spf ltac:(lia)). nia.
  - subst n. unfold frame_count_of.
    pose proof (Z.div_mod (len samples + spf - 1) spf ltac:(lia)).
    pose proof (Z.mod_pos_bound (len samples + spf - 1) spf ltac:(lia)). nia.
  - intros fuel Hfuel. eexists. split.
    + apply samples_to_frame_channels_run; assumption.
    + pose proof (frame_count_of_nonneg (len samples) spf Hl Hs). subst n.
      unfold len at 1. rewrite length_map, range_length. lia.
  - intros ->. cbn. destruct (0 <? 0) eqn:E; [discriminate | reflexivity].
  - intros fuel bad Hbad Hne. apply frame_loop_stuck; try lia.
    destruct samples; [congruence | unfold len; cbn [length]; lia].
Qed.

Lemma frame_encoder_terminates_witness :
  1 <= 2 /\
  exists frames, samples_to_frame_channels 3 [1; 2; 3] 2 = Ok frames
                 /\ len frames = 2.
Proof.
  split; [lia|].
  destruct (frame_encoder_terminates [1; 2; 3] 2 ltac:(lia)) as [_ [H _]].
  apply (H 3%nat). vm_compute. lia.
Defined.

(** C1. With [--stereo] on a two-channel input the frames do not have the
    width declared to the writer: for one stereo sample pair at the default
    rate the encoder returns one frame of 2 + 1102 * 2 = 2206 bytes while
    [main] declares [channels_per_frame] = 2 + 1102 * 2 * 2 = 4410, and the
    size assertion of [write_fseq_v2] fails on the first frame. *)
Theorem stereo_frame_width_mismatch (k : nat) :
  (exists enc,
      main_encode (2 + k) stereo_args stereo_pair = Ok enc
      /\ map len (frames enc) = [2206]
      /\ channels_per_frame enc = 4410)
  /\ result (main (2 + k) stereo_args stereo_pair) = Raise AssertionError.
Proof.
  assert (E : main_encode 2 stereo_args stereo_pair
              = Ok {| frames := [SYNC_MARKER ++ zeros 2204];
                      step_time_ms := 25;
                      samples_per_frame := 1102;
                      channels_per_frame := 4410;
                      total_frames := 1 |}) by (vm_compute; reflexivity).
  apply (main_encode_more_fuel 2 (2 + k)) in E; [|lia].
  split.
  - eexists. split; [exact E|]. split; vm_compute; reflexivity.
  - unfold main. rewrite E. vm_compute. reflexivity.
Qed.

(** The frames of one second of silence at the default settings: 41 of
    them, since 44100 = 40 * 1102 + 20 leaves a last, padded frame. *)
Lemma silence_encoded (k : nat) :
  main_encode (42 + k) default_args silence_1s
  = Ok {| frames := repeat silent_frame 41;
          step_time_ms := 25;
          samples_per_frame := 1102;
          channels_per_frame := 2206;
          total_frames := 41 |}.
Proof.
  apply (main_encode_more_fuel 42 (42 + k)); [lia|].
  vm_compute. reflexivity.
Qed.

(** C3 as stated fails: the run does not produce 40 frames. *)
Lemma silence_not_40_frames :
  ~ (exists enc, main_encode 42 default_args silence_1s = Ok enc
                 /\ length (frames enc) = 40%nat).
Proof.
  intros [enc [E H]].
  rewrite (silence_encoded 0 : main_encode 42 _ _ = _) in E.
  injection E as <-. vm_compute in H. discriminate H.
Qed.

(** C3, amended. Encoding one second of 44100 Hz mono silence at 40 fps
    (step time 25 ms, 1102 samples per frame) produces exactly 41 frames
    (40 full ones and a last one holding the remaining 20 samples, padded),
    each of 2206 bytes, starting with 0xAA 0x55 and with every PCM byte
    zero. *)
Theorem silence_end_to_end (k : nat) :
  exists enc,
    main_encode (42 + k) default_args silence_1s = Ok enc
    /\ step_time_ms enc = 25
    /\ samples_per_frame enc = 1102
    /\ channels_per_frame enc = 2206
    /\ len (frames enc) = 41
    /\ Forall (fun frame =>
                 len frame = 2206
                 /\ firstn 2 frame = [Byte.xaa; Byte.x55]
                 /\ Forall (eq Byte.x00) (skipn 2 frame))
              (frames enc).
Proof.
  eexists. split; [apply silence_encoded|]. cbn [frames step_time_ms
    samples_per_frame channels_per_frame].
  repeat split; try reflexivity.
  apply Forall_forall. intros frame Hin. apply repeat_spec in Hin. subst frame.
  repeat split.
  apply Forall_forall. intros b Hb. cbn [silent_frame SYNC_MARKER app skipn] in Hb.
  unfold zeros in Hb. apply repeat_spec in Hb. congruence.
Qed.

(** ** Mono mix *)

Lemma range3_forward (stop step : Z) :
  0 < step ->
  range3 0 stop step
  = Ok (map (fun k => 0 + Z.of_nat k * step)
            (seq 0 (Z.to_nat ((stop + step - 1) / step)))).
Proof.
  intros Hs. unfold range3.
  test_false (step =? 0).
  test_true (0 <? step).
  now rewrite Z.sub_0_r.
Qed.

(** C4 as stated fails: the mean of a group with a negative sum is rounded
    toward negative infinity, not toward zero. *)
Lemma to_mono_not_truncating :
  to_mono [-3; -4] 2 <> Ok [Z.quot (-3 + -4) 2].
Proof. vm_compute. discriminate. Qed.

(** C4, amended. For a sample list whose length is a multiple of
    [n_channels >= 2], [to_mono] replaces each group of [n_channels]
    consecutive samples by the arithmetic mean of the group rounded toward
    negative infinity: the greatest integer [m] with
    [m * n_channels <= sum(group)]. For one channel it is the identity, and
    [[3, 4]] maps to [[3]]. *)
Theorem to_mono_floor_mean (samples : list Z) (n : Z) :
  to_mono samples 1 = Ok samples
  /\ to_mono [3; 4] 2 = Ok [3]
  /\ (2 <= n -> len samples mod n = 0 ->
      exists mono,
        to_mono samples n = Ok mono
        /\ len mono = len samples / n
        /\ forall k, 0 <= k < len samples / n ->
             exists m,
               nth_error mono (Z.to_nat k) = Some m
               /\ m * n <= sum (group samples n k) < m * n + n).
Proof.
  split; [reflexivity|]. split; [reflexivity|].
  intros Hn Hmod. pose proof (len_nonneg samples) as Hl.
  assert (Hq : len samples = n * (len samples / n))
    by (pose proof (Z.div_mod (len samples) n ltac:(lia)); lia).
  assert (Hq0 : 0 <= len samples / n) by (apply Z.div_pos; lia).
  assert (Hcount : (len samples + n - 1) / n = len samples / n).
  { symmetry. apply (Z.div_unique _ _ _ (n - 1)); lia. }
  set (g := fun i => sum (slice samples i (i + n)) / n).
  exists (map g (map (fun k => 0 + Z.of_nat k * n)
                     (seq 0 (Z.to_nat (len samples / n))))).
  split; [|split].
  - unfold to_mono.
    test_false (n =? 1).
    rewrite range3_forward, Hcount by lia. cbn [bind].
    apply mapM_map. intros x Hx. apply in_map_iff in Hx.
    destruct Hx as [k [<- Hk]]. apply in_seq in Hk.
    rewrite len_slice_inside by nia.
    unfold floordiv, g.
    replace (0 + Z.of_nat k * n + n - (0 + Z.of_nat k * n)) with n by lia.
    destruct (n =? 0) eqn:E0; [apply Z.eqb_eq in E0; lia | reflexivity].
  - unfold len at 1. rewrite !length_map, length_seq. lia.
  - intros k Hk. exists (g (k * n)). split.
    + rewrite nth_error_map, nth_error_map, nth_error_seq.
      destruct (Nat.ltb_spec (Z.to_nat k) (Z.to_nat (len samples / n))); [|lia].
      cbn [option_map]. do 2 f_equal. lia.
    + unfold g. rewrite slice_inside by nia.
      replace (k * n + n - k * n) with n by lia. fold (group samples n k).
      pose proof (Z.div_mod (sum (group samples n k)) n ltac:(lia)).
      pose proof (Z.mod_pos_bound (sum (group samples n k)) n ltac:(lia)).
      nia.
Qed.

Lemma to_mono_floor_mean_witness :
  exists mono,
    to_mono [-3; -4; 3; 4] 2 = Ok mono
    /\ len mono = 2
    /\ forall k, 0 <= k < 2 ->
         exists m,
           nth_error mono (Z.to_nat k) = Some m
           /\ m * 2 <= sum (group [-3; -4; 3; 4] 2 k) < m * 2 + 2.
Proof.
  destruct (to_mono_floor_mean [-3; -4; 3; 4] 2) as [_ [_ H]].
  apply H; [lia | reflexivity].
Defined.

(** ** Header codec *)

Lemma pack_ok (width : nat) (v : Z) :
  0 <= v < 2 ^ (Z.of_nat width * 8) -> pack width v = Ok (le_split width v).
Proof.
  intros [H0 H1]. unfold pack.
  test_true (0 <=? v).
  destruct (v <? 2 ^ (Z.of_nat width * 8)) eqn:E1;
    [reflexivity | apply Z.ltb_ge in E1; lia].
Qed.

Lemma pack_length (width : nat) (v : Z) (b : list byte) :
  pack width v = Ok b -> length b = width.
Proof.
  unfold pack. destruct (_ && _); [|discriminate].
  intros [= <-]. apply length_le_split.
Qed.

Lemma unpack_pack (width : nat) (v : Z) :
  0 <= v < 2 ^ (Z.of_nat width * 8) -> unpack width (le_split width v) = Ok v.
Proof.
  intros Hv. unfold unpack.
  rewrite length_le_split, Nat.eqb_refl, le_combine_split.
  now rewrite Z.mod_small.
Qed.

Lemma read_app (n : nat) (b f : list byte) :
  length b = n -> read n (b ++ f) = (b, f).
Proof.
  intros <-. unfold read.
  rewrite firstn_app, skipn_app, firstn_all, skipn_all, Nat.sub_diag.
  cbn [firstn skipn]. now rewrite app_nil_r.
Qed.

(** A value decoded from [width] bytes fits [width] bytes. *)
Lemma unpack_range (width : nat) (b : list byte) (v : Z) :
  unpack width b = Ok v -> 0 <= v < 2 ^ (Z.of_nat width * 8).
Proof.
  unfold unpack. destruct (Nat.eqb_spec (length b) width) as [<-|]; [|discriminate].
  intros [= <-]. rewrite Z.mul_comm. apply le_combine_bound.
Qed.

(** The header the writer and the merger build is the general layout at
    their constants. *)
Lemma fixed_header_encode (off cpf fc st : Z) :
  fixed_header off cpf fc st = encodeFixedHeader (written_header off cpf fc st).
Proof. reflexivity. Qed.

Lemma encodeFixedHeader_ok (h : FseqInfo) :
  valid_header h ->
  encodeFixedHeader h
  = Ok (FSEQ_MAGIC ++ le_split 2 (data_offset h)
          ++ le_split 1 (snd (version h)) ++ le_split 1 (fst (version h))
          ++ le_split 2 (var_header_offset h) ++ le_split 4 (channel_count h)
          ++ le_split 4 (frame_count h) ++ le_split 1 (step_time h)
          ++ le_split 1 (flags h) ++ le_split 1 (compression h)
          ++ le_split 1 (comp_blocks h) ++ le_split 1 (sparse_ranges h)
          ++ le_split 1 0 ++ le_split 8 0).
Proof.
  intros (H1 & H2 & H3 & H4 & H5 & H6 & H7 & H8 & H9 & H10 & H11).
  unfold encodeFixedHeader.
  rewrite !pack_ok by (try assumption; cbn; lia).
  reflexivity.
Qed.

Lemma encodeFixedHeader_length (h : FseqInfo) (b : list byte) :
  encodeFixedHeader h = Ok b -> len b = 32.
Proof.
  unfold encodeFixedHeader.
  repeat match goal with
         | |- bind (pack ?w ?v) _ = Ok _ -> _ =>
             let E := fresh "E" in
             destruct (pack w v) eqn:E; cbn [bind]; try discriminate;
             apply pack_length in E
         end.
  intros [= <-]. unfold len. cbn [length]. rewrite !length_app. lia.
Qed.

Lemma read_encoded_header (h : FseqInfo) (rest : list byte) :
  valid_header h ->
  exists b,
    encodeFixedHeader h = Ok b
    /\ len b = 32
    /\ read_fseq_header (b ++ rest) = Ok h.
Proof.
  intros Hv. pose proof (encodeFixedHeader_ok h Hv) as E.
  eexists. split; [exact E|]. split; [exact (encodeFixedHeader_length _ _ E)|].
  destruct Hv as (H1 & H2 & H3 & H4 & H5 & H6 & H7 & H8 & H9 & H10 & H11).
  unfold read_fseq_header. rewrite <- !app_assoc.
  rewrite (read_app 4 FSEQ_MAGIC) by reflexivity.
  destruct (list_eq_dec Byte.byte_eq_dec _ _) as [_|Hne]; [|congruence].
  repeat (rewrite read_app by apply length_le_split;
          rewrite unpack_pack by (cbn; lia); cbn [bind]).
  destruct h as [? [? ?] ? ? ? ? ? ? ? ?]. reflexivity.
Qed.

(** What [read_fseq_header] returns fits the field widths. *)
Lemma read_fseq_header_valid (file : list byte) (info : FseqInfo) :
  read_fseq_header file = Ok info -> valid_header info.
Proof.
  unfold read_fseq_header, read.
  destruct (list_eq_dec Byte.byte_eq_dec _ _) as [_|_]; [|discriminate].
  repeat match goal with
         | |- bind (unpack ?w ?b) _ = Ok _ -> _ =>
             let E := fresh "E" in
             destruct (unpack w b) eqn:E; cbn [bind]; try discriminate;
             apply unpack_range in E
         end.
  intros [= <-]. unfold valid_header. cbn in *. repeat split; lia.
Qed.

(** C7. For every header whose fields fit their declared widths, decoding
    the 32 bytes the encoder produces for it (followed by any further file
    contents) gives back exactly the same field values. The header block of
    [write_fseq_v2] and [merge_into_fseq] is this encoder at version 2.0, so
    what they write reads back as the values they were given. *)
Theorem header_round_trip (h : FseqInfo) (rest : list byte) :
  valid_header h ->
  (exists b,
      encodeFixedHeader h = Ok b
      /\ len b = 32
      /\ read_fseq_header (b ++ rest) = Ok h)
  /\ (forall off cpf fc st,
        fixed_header off cpf fc st
        = encodeFixedHeader (written_header off cpf fc st)).
Proof.
  intros Hv. split.
  - exact (read_encoded_header h rest Hv).
  - intros off cpf fc st. apply fixed_header_encode.
Qed.

Lemma header_round_trip_witness :
  exists b,
    fixed_header 72 2206 41 25 = Ok b
    /\ len b = 32
    /\ read_fseq_header (b ++ [Byte.xaa; Byte.x55])
       = Ok (written_header 72 2206 41 25).
Proof.
  destruct (header_round_trip (written_header 72 2206 41 25)
              [Byte.xaa; Byte.x55]) as [[b [E H]] Hsrc].
  - unfold valid_header. cbn. lia.
  - exists b. rewrite Hsrc. split; assumption.
Defined.

(** ** Merger *)

Lemma index_ok {A : Type} (l : list A) (i : Z) (d : A) :
  0 <= i < len l -> index l i = Ok (nth (Z.to_nat i) l d).
Proof.
  intros [H0 H1]. unfold index.
  test_false (i <? 0).
  test_true (0 <=? i).
  test_true (i <? len l).
  cbn [andb]. unfold len in H1.
  rewrite (nth_error_nth' l d) by lia. reflexivity.
Qed.

Lemma nth_zeros (n : Z) (i : nat) : nth i (zeros n) Byte.x00 = Byte.x00.
Proof. unfold zeros. apply nth_repeat. Qed.

Lemma range_nth (n : Z) (i : nat) (d : Z) :
  (i < Z.to_nat n)%nat -> nth i (range n) d = Z.of_nat i.
Proof.
  intros Hi. apply nth_error_nth. now apply range_nth_error.
Qed.

(** Two byte rows of the same length with the same byte at every channel
    are equal. *)
Lemma row_ext (row : list byte) (n : Z) (g : Z -> byte) :
  len row = n ->
  (forall c, 0 <= c < n -> nth (Z.to_nat c) row Byte.x00 = g c) ->
  row = map g (range n).
Proof.
  intros Hl Hg. unfold len in Hl.
  apply (nth_ext _ _ Byte.x00 (g 0)).
  - rewrite length_map, range_length. lia.
  - intros i Hi. rewrite (map_nth g (range n) 0 i : nth i (map g (range n)) (g 0) = _).
    rewrite range_nth by lia.
    rewrite <- (Hg (Z.of_nat i)) by lia. now rewrite Nat2Z.id.
Qed.

Section MergeRow.
Variables (lcc lfc : Z) (light_data : list byte).
Variable audio_frames : list (list byte).
Variables (acpf sc : Z).
Hypothesis Hlcc : 0 <= lcc.
Hypothesis Hsc : 0 <= sc.
Hypothesis Haudio : Forall (fun frame => len frame = acpf) audio_frames.

Lemma audio_frame_len (f : Z) :
  0 <= f < len audio_frames ->
  len (nth (Z.to_nat f) audio_frames []) = acpf.
Proof.
  intros Hf. rewrite Forall_forall in Haudio. apply Haudio.
  apply nth_In. unfold len in Hf. lia.
Qed.

(** Each loop iteration builds the row of [merged_grid]. *)
Lemma merge_row_merged (f : Z) :
  0 <= f ->
  merge_row lcc lfc light_data audio_frames acpf sc
    (merged_total_channels lcc acpf sc) f
  = Ok (merged_row lcc lfc light_data audio_frames acpf sc f).
Proof.
  intros Hf. unfold merge_row.
  set (tc := merged_total_channels lcc acpf sc).
  assert (Htc : 0 <= tc) by (unfold tc, merged_total_channels; lia).
  assert (Hlcc_tc : lcc <= tc) by (unfold tc, merged_total_channels; lia).
  (* the row after the light copy *)
  set (frame1 :=
         if f <? lfc
         then if f * lcc + lcc <=? len light_data
              then slice_assign (zeros tc) 0 lcc
                     (slice light_data (f * lcc) (f * lcc + lcc))
              else zeros tc
         else zeros tc).
  assert (Hlen1 : len frame1 = tc).
  { subst frame1. destruct (f <? lfc); [|now apply len_zeros].
    destruct (f * lcc + lcc <=? len light_data) eqn:E; [|now apply len_zeros].
    apply Z.leb_le in E.
    rewrite len_slice_assign_inside; rewrite ?len_zeros; try lia.
    rewrite len_slice_inside; nia. }
  assert (Hnth1 : forall c, 0 <= c < tc ->
             nth (Z.to_nat c) frame1 Byte.x00
             = if (f <? lfc) && light_row_available lcc light_data f
                  && (c <? lcc)
               then light_byte lcc light_data f c else Byte.x00).
  { intros c Hc. subst frame1. unfold light_row_available.
    destruct (f <? lfc); cbn [andb]; [|apply nth_zeros].
    destruct (f * lcc + lcc <=? len light_data) eqn:E; cbn [andb];
      [|apply nth_zeros].
    apply Z.leb_le in E.
    rewrite nth_slice_assign_inside; rewrite ?len_zeros; try lia;
      [|rewrite len_slice_inside; nia].
    test_true (0 <=? c). cbn [andb].
    destruct (c <? lcc) eqn:E1; [|apply nth_zeros].
    apply Z.ltb_lt in E1. rewrite Z.sub_0_r.
    rewrite nth_slice_inside by nia. reflexivity. }
  destruct (f <? len audio_frames) eqn:Ea.
  - apply Z.ltb_lt in Ea.
    rewrite (index_ok audio_frames f []) by lia. cbn [bind]. f_equal.
    pose proof (audio_frame_len f ltac:(lia)) as Hal.
    pose proof (len_nonneg (nth (Z.to_nat f) audio_frames [])) as Hnn.
    assert (Hfit : sc + acpf <= tc)
      by (unfold tc, merged_total_channels; lia).
    apply row_ext.
    + rewrite len_slice_assign_inside; lia.
    + intros c Hc. rewrite nth_slice_assign_inside by lia.
      unfold merged_byte, in_audio, audio_byte.
      test_true (f <? len audio_frames).
      cbn [andb].
      destruct ((sc <=? c) && (c <? sc + acpf)); [reflexivity|].
      now apply Hnth1.
  - f_equal. apply row_ext; [exact Hlen1|].
    intros c Hc. rewrite Hnth1 by assumption.
    unfold merged_byte, in_audio. rewrite Ea. reflexivity.
Qed.

Lemma merge_rows_merged :
  merge_rows lcc lfc light_data audio_frames acpf sc
  = Ok (merged_grid lcc lfc light_data audio_frames acpf sc).
Proof.
  unfold merge_rows, merged_grid.
  apply mapM_map. intros f Hf. apply range_In in Hf.
  apply merge_row_merged. lia.
Qed.


(** When the light data holds every declared row, no row is left out. *)
Lemma merged_grid_complete :
  0 <= lfc -> lcc * lfc <= len light_data ->
  merged_grid lcc lfc light_data audio_frames acpf sc
  = grid lcc lfc light_data audio_frames acpf sc.
Proof.
  intros Hlfc Hdata. unfold merged_grid, grid.
  apply map_ext_in. intros f Hf. apply range_In in Hf.
  unfold merged_row, grid_row. apply map_ext. intros c.
  unfold merged_byte, grid_byte, light_row_available.
  destruct (in_audio audio_frames acpf sc f c); [reflexivity|].
  destruct (f <? lfc) eqn:E; cbn [andb]; [|reflexivity].
  apply Z.ltb_lt in E.
  destruct (f * lcc + lcc <=? len light_data) eqn:E1; [reflexivity|].
  apply Z.leb_gt in E1. nia.
Qed.
End MergeRow.

Lemma merged_variable_header :
  exists vh, build_variable_header Text.merged = Ok vh /\ len vh = 40.
Proof. eexists. split; vm_compute; reflexivity. Qed.

(** A merge into a readable, uncompressed version-2 file whose merged
    dimensions fit the header succeeds: it writes a 72-byte header block
    that declares the merged dimensions, followed by the rows of
    [merged_grid]. *)
Lemma merge_into_fseq_run (audio_frames : list (list byte)) (acpf : Z)
    (merge_file : list byte) (sc : Z) (info : FseqInfo) :
  read_fseq_header merge_file = Ok info ->
  compression info = 0 ->
  fst (version info) = 2 ->
  0 <= sc ->
  Forall (fun frame => len frame = acpf) audio_frames ->
  let lcc := channel_count info in
  let lfc := frame_count info in
  let light_data := slice_from merge_file (data_offset info) in
  let tc := merged_total_channels lcc acpf sc in
  let tf := merged_total_frames lfc audio_frames in
  tc < 2 ^ 32 -> tf < 2 ^ 32 ->
  exists prefix,
    len prefix = 72
    /\ (forall rest,
          read_fseq_header (prefix ++ rest)
          = Ok (written_header 72 tc tf (step_time info)))
    /\ merge_into_fseq audio_frames acpf merge_file sc
       = {| file := Some (prefix ++
                          concat (merged_grid lcc lfc light_data audio_frames
                                    acpf sc));
            result := Ok (72 + tf * tc, tc, tf) |}.
Proof.
  intros Hread Hcomp Hver Hsc Haudio lcc lfc light_data tc tf Htc Htf.
  pose proof (read_fseq_header_valid _ _ Hread)
    as (_ & _ & _ & _ & Hcc & Hfc & Hst & _).
  fold lcc in Hcc. fold lfc in Hfc.
  pose proof (len_nonneg audio_frames) as Hafc.
  assert (Hvalid : valid_header (written_header 72 tc tf (step_time info))).
  { unfold valid_header, written_header. cbn.
    subst tc tf. unfold merged_total_channels, merged_total_frames in *.
    repeat split; lia. }
  destruct merged_variable_header as [vh [Evh Hvh]].
  destruct (read_encoded_header _ vh Hvalid) as [hb [Ehb [Hhb _]]].
  exists (hb ++ vh). split; [rewrite len_app; lia|]. split.
  - intros rest. rewrite <- app_assoc.
    destruct (read_encoded_header _ (vh ++ rest) Hvalid) as [hb' [Ehb' [_ R]]].
    congruence.
  - unfold merge_into_fseq. rewrite Hread. cbn [bind].
    rewrite Hcomp, Hver. cbn [Z.eqb negb Pos.eqb].
    rewrite Evh. cbn [bind]. rewrite Hvh.
    change ((4 - (32 + 40) mod 4) mod 4) with 0.
    change (32 + 40 + 0) with 72.
    rewrite fixed_header_encode.
    fold lcc lfc. fold (merged_total_channels lcc acpf sc).
    fold (merged_total_frames lfc audio_frames). fold tc tf.
    rewrite Ehb. cbn [bind].
    fold light_data.
    change (merge_rows (channel_count info) (frame_count info))
      with (merge_rows lcc lfc).
    rewrite (merge_rows_merged lcc lfc light_data audio_frames acpf sc)
      by (try assumption; lia).
    reflexivity.
Qed.

Lemma slice_from_prefix (prefix data : list byte) (n : Z) :
  len prefix = n -> slice_from (prefix ++ data) n = data.
Proof.
  intros Hn. unfold slice_from. pose proof (len_nonneg prefix).
  rewrite slice_bound_nonneg by lia. rewrite len_app.
  pose proof (len_nonneg data). rewrite Z.min_l by lia.
  unfold len in Hn. rewrite <- Hn, Nat2Z.id, skipn_app, skipn_all, Nat.sub_diag.
  reflexivity.
Qed.

Lemma grid_dimensions (lcc lfc : Z) (light_data : list byte)
    (audio_frames : list (list byte)) (acpf sc : Z) :
  0 <= lcc -> 0 <= lfc ->
  len (grid lcc lfc light_data audio_frames acpf sc)
  = Z.max lfc (len audio_frames)
  /\ Forall (fun row => len row = Z.max lcc (sc + acpf))
            (grid lcc lfc light_data audio_frames acpf sc).
Proof.
  intros Hlcc Hlfc. unfold grid, merged_total_frames. split.
  - unfold len at 1. rewrite length_map, range_length. lia.
  - apply Forall_forall. intros row Hrow. apply in_map_iff in Hrow.
    destruct Hrow as [f [<- _]]. unfold grid_row, merged_total_channels, len.
    rewrite length_map, range_length. lia.
Qed.

(** C6. Merging a light grid of [lcc] channels x [lfc] frames with an
    audio grid of [acpf] channels x [len audio_frames] frames at channel
    offset [sc] gives a file whose header declares
    [max(lfc, audio frames)] frames of [max(lcc, sc + acpf)] channels and
    whose channel data is the grid of that size in which row [f] holds the
    audio frame [f] at [sc] when there is one, the light row [f] at channel
    0 when there is one (audio wins where both lie), and zero elsewhere. *)
Theorem merge_dimension_union (audio_frames : list (list byte)) (acpf : Z)
    (merge_file : list byte) (sc : Z) (info : FseqInfo) :
  read_fseq_header merge_file = Ok info ->
  compression info = 0 ->
  fst (version info) = 2 ->
  0 <= sc ->
  Forall (fun frame => len frame = acpf) audio_frames ->
  let lcc := channel_count info in
  let lfc := frame_count info in
  let light_data := slice_from merge_file (data_offset info) in
  let total_channels := Z.max lcc (sc + acpf) in
  let total_frames := Z.max lfc (len audio_frames) in
  lcc * lfc <= len light_data ->
  total_channels < 2 ^ 32 -> total_frames < 2 ^ 32 ->
  exists out,
    merge_into_fseq audio_frames acpf merge_file sc
    = {| file := Some out;
         result := Ok (72 + total_frames * total_channels,
                       total_channels, total_frames) |}
    /\ read_fseq_header out
       = Ok (written_header 72 total_channels total_frames (step_time info))
    /\ slice_from out 72
       = concat (grid lcc lfc light_data audio_frames acpf sc)
    /\ len (grid lcc lfc light_data audio_frames acpf sc) = total_frames
    /\ Forall (fun row => len row = total_channels)
              (grid lcc lfc light_data audio_frames acpf sc).
Proof.
  intros Hread Hcomp Hver Hsc Haudio lcc lfc light_data tc tf Hdata Htc Htf.
  pose proof (read_fseq_header_valid _ _ Hread)
    as (_ & _ & _ & _ & Hcc & Hfc & _).
  destruct (merge_into_fseq_run audio_frames acpf merge_file sc info
              Hread Hcomp Hver Hsc Haudio Htc Htf) as [prefix [Hp [Hhdr Hrun]]].
  fold lcc lfc light_data in Hrun.
  rewrite merged_grid_complete in Hrun by (try assumption; fold lcc lfc; lia).
  eexists. split; [exact Hrun|]. split; [apply Hhdr|].
  split; [now apply slice_from_prefix|].
  apply grid_dimensions; fold lcc lfc; lia.
Qed.

Lemma merge_dimension_union_witness :
  exists out,
    merge_into_fseq audio_6x15 6 light_4x10 4
    = {| file := Some out; result := Ok (72 + 15 * 10, 10, 15) |}
    /\ read_fseq_header out = Ok (written_header 72 10 15 25)
    /\ slice_from out 72
       = concat (grid 4 10 (repeat Byte.x11 40) audio_6x15 6 4)
    /\ len (grid 4 10 (repeat Byte.x11 40) audio_6x15 6 4) = 15
    /\ Forall (fun row => len row = 10)
              (grid 4 10 (repeat Byte.x11 40) audio_6x15 6 4).
Proof.
  apply (merge_dimension_union audio_6x15 6 light_4x10 4
           (written_header 32 4 10 25)).
  - vm_compute. reflexivity.
  - reflexivity.
  - reflexivity.
  - lia.
  - vm_compute. repeat constructor.
  - vm_compute. discriminate.
  - vm_compute. reflexivity.
  - vm_compute. reflexivity.
Defined.

(** The scenario of the specification: rows 0 to 9 hold light then audio,
    rows 10 to 14 hold zeros in the light channels and the audio frame at
    channel 4. *)
Lemma merge_4x10_6x15 :
  grid 4 10 (repeat Byte.x11 40) audio_6x15 6 4
  = repeat ([Byte.x11; Byte.x11; Byte.x11; Byte.x11;
             Byte.xaa; Byte.x55; Byte.x01; Byte.x02; Byte.x03; Byte.x04]) 10
    ++ repeat ([Byte.x00; Byte.x00; Byte.x00; Byte.x00;
                Byte.xaa; Byte.x55; Byte.x01; Byte.x02; Byte.x03; Byte.x04]) 5.
Proof. vm_compute. reflexivity. Qed.

(** Outside the specified range of the channel offset: a negative
    [start_channel] addresses the row from its end, and the overlay then
    changes the length of the row. *)
Lemma negative_start_channel_row :
  exists row,
    merge_row 4 1 (repeat Byte.x11 4)
      [[Byte.xaa; Byte.x55; Byte.x01; Byte.x02; Byte.x03; Byte.x04]]
      6 (-3) (merged_total_channels 4 6 (-3)) 0 = Ok row
    /\ merged_total_channels 4 6 (-3) = 4
    /\ len row = 8.
Proof. eexists. repeat split; vm_compute; reflexivity. Qed.



(** C5 as stated fails: a merge target that declares 4 x 2 bytes of
    channel data and holds 4 is merged without any error. *)
Lemma truncated_merge_proceeds :
  len (slice_from truncated_4x2 32) < 4 * 2
  /\ exists out,
       merge_into_fseq [] 0 truncated_4x2 0
       = {| file := Some out; result := Ok (72 + 2 * 4, 4, 2) |}.
Proof.
  split; [vm_compute; reflexivity|].
  eexists. vm_compute. reflexivity.
Qed.

(** C5, amended. When the bytes from the declared data offset to the end
    of the merge target are fewer than [channel_count * frame_count], the
    merge does not fail: it writes the merged file, with each light row that
    lies completely within the available bytes copied and every other light
    row (the last declared one among them) left zero under the audio
    overlay. *)
Theorem truncated_light_data_tolerated (audio_frames : list (list byte))
    (acpf : Z) (merge_file : list byte) (sc : Z) (info : FseqInfo) :
  read_fseq_header merge_file = Ok info ->
  compression info = 0 ->
  fst (version info) = 2 ->
  0 <= sc ->
  Forall (fun frame => len frame = acpf) audio_frames ->
  let lcc := channel_count info in
  let lfc := frame_count info in
  let light_data := slice_from merge_file (data_offset info) in
  let total_channels := Z.max lcc (sc + acpf) in
  let total_frames := Z.max lfc (len audio_frames) in
  len light_data < lcc * lfc ->
  total_channels < 2 ^ 32 -> total_frames < 2 ^ 32 ->
  exists prefix,
    merge_into_fseq audio_frames acpf merge_file sc
    = {| file := Some (prefix ++
                       concat (merged_grid lcc lfc light_data audio_frames
                                 acpf sc));
         result := Ok (72 + total_frames * total_channels,
                       total_channels, total_frames) |}
    /\ len prefix = 72
    /\ light_row_available lcc light_data (lfc - 1) = false
    /\ forall f c,
         light_row_available lcc light_data f = false ->
         merged_byte lcc lfc light_data audio_frames acpf sc f c
         = if in_audio audio_frames acpf sc f c
           then audio_byte audio_frames sc f c
           else Byte.x00.
Proof.
  intros Hread Hcomp Hver Hsc Haudio lcc lfc light_data tc tf Hdata Htc Htf.
  destruct (merge_into_fseq_run audio_frames acpf merge_file sc info
              Hread Hcomp Hver Hsc Haudio Htc Htf) as [prefix [Hp [_ Hrun]]].
  exists prefix. split; [exact Hrun|]. split; [exact Hp|]. split.
  - unfold light_row_available. apply Z.leb_gt. lia.
  - intros f c Hf. unfold merged_byte. rewrite Hf.
    rewrite andb_false_r. reflexivity.
Qed.

Lemma truncated_light_data_tolerated_witness :
  exists prefix,
    merge_into_fseq [] 0 truncated_4x2 0
    = {| file := Some (prefix ++
                       concat (merged_grid 4 2
                                 [Byte.x01; Byte.x02; Byte.x03; Byte.x04]
                                 [] 0 0));
         result := Ok (72 + 2 * 4, 4, 2) |}
    /\ len prefix = 72
    /\ light_row_available 4 [Byte.x01; Byte.x02; Byte.x03; Byte.x04] (2 - 1)
       = false
    /\ forall f c,
         light_row_available 4 [Byte.x01; Byte.x02; Byte.x03; Byte.x04] f
         = false ->
         merged_byte 4 2 [Byte.x01; Byte.x02; Byte.x03; Byte.x04] [] 0 0 f c
         = if in_audio [] 0 0 f c then audio_byte [] 0 f c else Byte.x00.
Proof.
  apply (truncated_light_data_tolerated [] 0 truncated_4x2 0
           (written_header 32 4 2 25)).
  - vm_compute. reflexivity.
  - reflexivity.
  - reflexivity.
  - lia.
  - constructor.
  - vm_compute. reflexivity.
  - vm_compute. reflexivity.
  - vm_compute. reflexivity.
Defined.

(** ** Binary64 rounding *)

Section FloatFacts.
Import Float.
Local Open Scope Q_scope.

Lemma pow2_pos (e : Z) : 0 < pow2 e.
Proof. unfold pow2. apply Qpower_0_lt. reflexivity. Qed.






(** An integer within a half of a value below an integer bound is below
    that bound, and likewise above. *)
Lemma int_below (r m : Z) (x : Q) :
  inject_Z r <= x + (1 # 2) -> x < inject_Z m - (1 # 2) -> (r <= m - 1)%Z.
Proof.
  intros H1 H2. destruct (Z_le_gt_dec r (m - 1)) as [|Hgt]; [assumption|].
  exfalso. assert (H : inject_Z m <= inject_Z r) by (rewrite <- Zle_Qle; lia).
  lra.
Qed.

Lemma int_above (r m : Z) (x : Q) :
  x - (1 # 2) <= inject_Z r -> inject_Z m <= x -> (m <= r)%Z.
Proof.
  intros H1 H2. destruct (Z_le_gt_dec m r) as [|Hgt]; [assumption|].
  exfalso.
  assert (H : inject_Z (r + 1) <= inject_Z m) by (rewrite <- Zle_Qle; lia).
  rewrite inject_Z_plus in H. change (inject_Z 1) with 1 in H. lra.
Qed.

Lemma round_half_even_close (q : Q) :
  q - (1 # 2) <= inject_Z (round_half_even q) <= q + (1 # 2).
Proof.
  unfold round_half_even.
  pose proof (Qfloor_le q) as Hlo. pose proof (Qlt_floor q) as Hhi.
  rewrite inject_Z_plus in Hhi. change (inject_Z 1) with 1 in Hhi.
  destruct (Qcompare_spec (q - inject_Z (Qfloor q)) (1 # 2)) as [E|E|E].
  - destruct (Z.even (Qfloor q)).
    + lra.
    + rewrite inject_Z_plus. change (inject_Z 1) with 1. lra.
  - lra.
  - rewrite inject_Z_plus. change (inject_Z 1) with 1. lra.
Qed.


Lemma round64_nonneg (q : Q) : 0 <= q -> 0 <= round64 q.
Proof.
  intros Hq. unfold round64.
  destruct (Qeq_bool q 0); [apply Qle_refl|].
  set (e := Z.max (ilog2 (Qabs q) - 52) (-1074)).
  pose proof (pow2_pos e) as He.
  apply Qmult_le_0_compat; [|now apply Qlt_le_weak].
  pose proof (round_half_even_close (q / pow2 e)) as [Hlo _].
  assert (Hx : 0 <= q / pow2 e) by (apply Qle_shift_div_l; [assumption|lra]).
  rewrite <- (Zle_Qle 0). apply (int_above _ _ (q / pow2 e)); assumption.
Qed.

Lemma round64_nonpos (q : Q) : q <= 0 -> round64 q <= 0.
Proof.
  intros Hq. unfold round64.
  destruct (Qeq_bool q 0); [apply Qle_refl|].
  set (e := Z.max (ilog2 (Qabs q) - 52) (-1074)).
  pose proof (pow2_pos e) as He.
  pose proof (round_half_even_close (q / pow2 e)) as [_ Hhi].
  assert (Hx : q / pow2 e <= 0).
  { apply Qle_shift_div_r; [assumption|lra]. }
  assert (HR : (round_half_even (q / pow2 e) <= 1 - 1)%Z).
  { apply (int_below _ _ (q / pow2 e)); [assumption|].
    change (inject_Z 1) with 1. lra. }
  rewrite Zle_Qle in HR. change (inject_Z (1 - 1)) with 0 in HR.
  set (R := inject_Z (round_half_even (q / pow2 e))) in *. nra.
Qed.

Lemma trunc_nonpos (q : Q) : q <= 0 -> (trunc q <= 0)%Z.
Proof.
  intros Hq. destruct q as [n d]. unfold trunc. cbn [Qnum Qden].
  unfold Qle in Hq. cbn in Hq.
  rewrite <- (Z.opp_involutive n), Z.quot_opp_l by lia.
  rewrite Z.quot_div_nonneg by lia.
  pose proof (Z.div_pos (- n) (Z.pos d) ltac:(lia) ltac:(lia)). lia.
Qed.

Lemma Qdiv_pos_sign (a b : Z) :
  0 < inject_Z a / inject_Z b -> (0 < a * b)%Z.
Proof.
  unfold Qdiv, Qinv, Qlt, inject_Z. destruct b as [|p|p]; cbn; nia.
Qed.

Lemma Qdiv_same_sign (a b : Z) :
  (0 < a * b)%Z -> 0 <= inject_Z a / inject_Z b.
Proof.
  unfold Qdiv, Qinv, Qle, inject_Z. destruct b as [|p|p]; cbn; nia.
Qed.

Lemma trunc_nonneg (q : Q) : 0 <= q -> trunc q = Qfloor q.
Proof.
  intros Hq. destruct q as [n d]. unfold trunc, Qfloor. cbn [Qnum Qden].
  apply Z.quot_div_nonneg; [|lia].
  unfold Qle in Hq. cbn in Hq. lia.
Qed.


Lemma trunc_range (q : Q) (lo hi : Z) :
  (lo <= 0 <= hi)%Z -> inject_Z lo <= q -> q <= inject_Z hi ->
  (lo <= trunc q <= hi)%Z.
Proof.
  intros Hz Hlo Hhi. destruct q as [n d]. unfold trunc. cbn [Qnum Qden].
  unfold Qle in Hlo, Hhi. cbn in Hlo, Hhi.
  destruct (Z_le_gt_dec 0 n) as [Hn|Hn].
  - rewrite Z.quot_div_nonneg by lia.
    pose proof (Z.div_mod n (Z.pos d) ltac:(lia)).
    pose proof (Z.mod_pos_bound n (Z.pos d) ltac:(lia)). nia.
  - rewrite <- (Z.opp_involutive n), Z.quot_opp_l by lia.
    rewrite Z.quot_div_nonneg by lia.
    pose proof (Z.div_mod (- n) (Z.pos d) ltac:(lia)).
    pose proof (Z.mod_pos_bound (- n) (Z.pos d) ltac:(lia)). nia.
Qed.


Lemma ltb_lt (x y : Q) : ltb x y = true -> x < y.
Proof.
  unfold ltb. destruct (Qcompare_spec x y); try discriminate. trivial.
Qed.
End FloatFacts.

Lemma clamp_float_range (val : Q) : -32768 <= clamp_float val <= 32767.
Proof.
  unfold clamp_float.
  destruct (Float.ltb val (inject_Z 32767)) eqn:E1; [|lia].
  destruct (Float.ltb (inject_Z (-32768)) val) eqn:E2; [|lia].
  apply ltb_lt in E1, E2.
  apply trunc_range; [lia | |]; now apply Qlt_le_weak.
Qed.

Lemma clamp_int_range (val : Z) : -32768 <= clamp_int val <= 32767.
Proof. unfold clamp_int. lia. Qed.

(** [round64] against the hardware on quotients, sums and differences
    in the normal range, at ties, below the normal range and for a negative
    value. *)
Section Hardware.
Import PrimFloat.
Local Open Scope Q_scope.

Lemma round64_agrees_with_binary64 :
  forallb (fun '(hardware, exact) =>
             Qeq_bool (Float.of_binary64 hardware) (Float.round64 exact))
    [ ((1 / 3)%float, 1 # 3);
      ((1 / 10)%float, 1 # 10);
      ((-1 / 3)%float, -1 # 3);
      ((44100 / 48000)%float, 44100 # 48000);
      ((1102500 / 1000)%float, 1102500 # 1000);
      ((0x1p53 + 1)%float, Float.pow2 53 + 1);
      ((0x1p53 + 3)%float, Float.pow2 53 + 3);
      ((1 - 0x1p-60)%float, 1 - Float.pow2 (-60));
      ((0x1p-1070 / 3)%float, Float.pow2 (-1070) / 3);
      ((0x1p-1074 / 2)%float, Float.pow2 (-1074) / 2);
      ((0x3p-1074 / 2)%float, 3 * Float.pow2 (-1074) / 2) ]
  = true.
Proof. vm_compute. reflexivity. Qed.
End Hardware.

(** ** Resampler *)

Lemma mapM_Forall {A B : Type} (P : B -> Prop) (f : A -> outcome B)
    (xs : list A) :
  (forall x, In x xs -> exists y, f x = Ok y /\ P y) ->
  exists ys, mapM f xs = Ok ys /\ length ys = length xs /\ Forall P ys.
Proof.
  induction xs as [|x xs IH]; intros H; cbn [mapM].
  - exists []. repeat split. constructor.
  - destruct (H x (or_introl eq_refl)) as [y [Hy Py]].
    destruct IH as [ys [E [Hl HF]]]; [intros z Hz; apply H; now right|].
    exists (y :: ys). rewrite Hy, E. cbn [bind length].
    repeat split; [now rewrite Hl | now constructor].
Qed.

Lemma trunc_nonneg_le (q : Q) : (0 <= q)%Q -> 0 <= Float.trunc q.
Proof.
  intros Hq. rewrite trunc_nonneg by assumption.
  rewrite <- (Qfloor_Z 0). now apply Qfloor_resp_le.
Qed.

Lemma of_int_nonneg (n : Z) : 0 <= n -> (0 <= Float.of_int n)%Q.
Proof.
  intros Hn. unfold Float.of_int. apply round64_nonneg.
  rewrite <- (Zle_Qle 0). exact Hn.
Qed.

(** The resampler never indexes outside the list: for any two nonzero
    rates that differ it returns as many samples as the rounded quotient
    says, each clamped to 16 bits. *)
Lemma resample_linear_run (samples : list Z) (src dst : Z) :
  src <> 0 -> dst <> 0 -> src <> dst ->
  exists out,
    resample_linear samples src dst = Ok out
    /\ length out
       = Z.to_nat (Float.trunc
                     (Float.round64 (inject_Z (len samples * dst) / inject_Z src)))
    /\ Forall int16 out.
Proof.
  intros Hsrc Hdst Hne. unfold resample_linear, Float.truediv.
  test_false (src =? dst).
  test_false (dst =? 0).
  test_false (src =? 0).
  cbn [bind].
  set (ratio := Float.round64 (inject_Z src / inject_Z dst)).
  set (quotient := (inject_Z (len samples * dst) / inject_Z src)%Q).
  set (out_len := Float.trunc (Float.round64 quotient)).
  pose proof (len_nonneg samples) as Hl.
  assert (Hsign : 1 <= out_len -> 1 <= len samples /\ (0 <= ratio)%Q).
  { intros Hout.
    assert (Hq : (0 < quotient)%Q).
    { apply Qnot_le_lt. intros Hq. apply round64_nonpos, trunc_nonpos in Hq.
      fold out_len in Hq. lia. }
    apply Qdiv_pos_sign in Hq. split; [nia|].
    apply round64_nonneg, Qdiv_same_sign. nia. }
  match goal with
  | |- context [mapM ?body ?indices] =>
      destruct (mapM_Forall int16 body indices) as [out [Hout [Hlen Hall]]]
  end.
  - intros i Hi. apply range_In in Hi. cbv zeta.
    destruct (Hsign ltac:(lia)) as [Hsamples Hratio].
    set (idx := Float.trunc (Float.mul (Float.of_int i) ratio)).
    assert (Hidx : 0 <= idx).
    { apply trunc_nonneg_le. unfold Float.mul. apply round64_nonneg.
      apply Qmult_le_0_compat; [apply of_int_nonneg; lia | assumption]. }
    destruct (idx + 1 <? len samples) eqn:Ei.
    + apply Z.ltb_lt in Ei.
      rewrite (index_ok samples idx 0), (index_ok samples (idx + 1) 0) by lia.
      cbn [bind]. eexists. split; [reflexivity|]. apply clamp_float_range.
    + rewrite (index_ok samples (Z.min idx (len samples - 1)) 0) by lia.
      cbn [bind]. eexists. split; [reflexivity|]. apply clamp_int_range.
  - exists out. split; [exact Hout|]. split; [|exact Hall].
    now rewrite Hlen, range_length.
Qed.




(** ** Driver *)

Lemma truediv_cases (a b : Z) : ok_or_zero_division (Float.truediv a b).
Proof.
  unfold Float.truediv. destruct (b =? 0); [now right | left; eauto].
Qed.

Lemma div_int_cases (x : Q) (b : Z) : ok_or_zero_division (Float.div_int x b).
Proof.
  unfold Float.div_int. destruct (b =? 0); [now right | left; eauto].
Qed.

Lemma floordiv_cases (a b : Z) : ok_or_zero_division (floordiv a b).
Proof.
  unfold floordiv. destruct (b =? 0); [now right | left; eauto].
Qed.

Lemma floordiv_ok (a b c : Z) : floordiv a b = Ok c -> b <> 0.
Proof.
  unfold floordiv. destruct (b =? 0) eqn:E; [discriminate|].
  intros _. now apply Z.eqb_neq.
Qed.

Lemma div_int_ok (x y : Q) (b : Z) : Float.div_int x b = Ok y -> b <> 0.
Proof.
  unfold Float.div_int. destruct (b =? 0) eqn:E; [discriminate|].
  intros _. now apply Z.eqb_neq.
Qed.

Lemma mapM_cases {A B : Type} (f : A -> outcome B) (xs : list A) :
  (forall x, ok_or_zero_division (f x)) -> ok_or_zero_division (mapM f xs).
Proof.
  intros H. induction xs as [|x xs IH]; cbn [mapM]; [left; eauto|].
  destruct (H x) as [[y ->]| ->]; cbn [bind]; [|now right].
  destruct IH as [[ys ->]| ->]; cbn [bind]; [left; eauto | now right].
Qed.

Lemma to_mono_cases (samples : list Z) (n : Z) :
  n <> 0 -> ok_or_zero_division (to_mono samples n).
Proof.
  intros Hn. unfold to_mono. destruct (n =? 1); [left; eauto|].
  unfold range3. test_false (n =? 0).
  cbn [bind]. apply mapM_cases. intros i. apply floordiv_cases.
Qed.

Lemma resample_linear_cases (samples : list Z) (src dst : Z) :
  src <> 0 -> ok_or_zero_division (resample_linear samples src dst).
Proof.
  intros Hsrc. destruct (Z.eq_dec src dst) as [->|Hne].
  - left. exists samples. unfold resample_linear. now rewrite Z.eqb_refl.
  - destruct (Z.eq_dec dst 0) as [->|Hdst].
    + right. unfold resample_linear, Float.truediv.
      test_false (src =? 0). reflexivity.
    + left. destruct (resample_linear_run samples src dst Hsrc Hdst Hne)
        as [out [E _]]. eauto.
Qed.

(** C2 as stated fails: a negative frame size is not rejected. With a step
    time of -25 ms the frame size is -1102 and an input without samples is
    encoded, to no frames, without any error. *)
Lemma negative_samples_per_frame_accepted :
  main_step_time negative_step_args = Ok (-25)
  /\ main_samples_per_frame (sample_rate negative_step_args) (-25) = Ok (-1102)
  /\ main_encode 1 negative_step_args no_audio
     = Ok {| frames := [];
             step_time_ms := -25;
             samples_per_frame := -1102;
             channels_per_frame := -2202;
             total_frames := 1 |}.
Proof. repeat split; vm_compute; reflexivity. Qed.

(** C2, amended. For every configuration whose computed frame size
    [int(target_rate * step_time_ms / 1000)] is zero, [main] fails with a
    division-by-zero error before the frame encoder runs, and writes no
    file. *)
Theorem zero_samples_per_frame_fails (fuel : nat) (args : Args)
    (audio : Audio) (st : Z) :
  main_step_time args = Ok st ->
  main_samples_per_frame (sample_rate args) st = Ok 0 ->
  main_encode fuel args audio = Raise ZeroDivisionError
  /\ main fuel args audio
     = {| file := None; result := Raise ZeroDivisionError |}.
Proof.
  intros Hst Hspf.
  assert (E : main_encode fuel args audio = Raise ZeroDivisionError).
  { unfold main_encode. rewrite Hst. cbn [bind].
    destruct (truediv_cases 1000 st) as [[x ->]| ->]; cbn [bind];
      [|reflexivity].
    destruct (truediv_cases (len (samples audio)) (n_channels audio))
      as [[pc ->]| ->]; cbn [bind]; [|reflexivity].
    destruct (Float.div_int pc (src_rate audio)) as [d| |] eqn:Ed;
      cbn [bind];
      [apply div_int_ok in Ed
      |destruct (div_int_cases pc (src_rate audio)) as [[? H]|H];
       congruence
      |destruct (div_int_cases pc (src_rate audio)) as [[? H]|H];
       congruence].
    destruct (floordiv (len (samples audio)) (n_channels audio))
      as [c| |] eqn:Ec; cbn [bind];
      [apply floordiv_ok in Ec
      |destruct (floordiv_cases (len (samples audio)) (n_channels audio))
         as [[? H]|H]; congruence
      |destruct (floordiv_cases (len (samples audio)) (n_channels audio))
         as [[? H]|H]; congruence].
    assert (Hmix : ok_or_zero_division
                     (if negb (stereo args) || (n_channels audio =? 1)
                      then mono <- to_mono (samples audio) (n_channels audio) ;;
                           Ok (mono, 1)
                      else Ok (samples audio, n_channels audio))).
    { destruct (negb (stereo args) || (n_channels audio =? 1));
        [|left; eauto].
      destruct (to_mono_cases (samples audio) (n_channels audio) Ec)
        as [[m ->]| ->]; cbn [bind]; [left; eauto | now right]. }
    destruct Hmix as [[[mixed nch] ->]| ->]; cbn [bind]; [|reflexivity].
    assert (Hres : ok_or_zero_division
                     (if negb (src_rate audio =? sample_rate args)
                      then resample_linear mixed (src_rate audio)
                             (sample_rate args)
                      else Ok mixed)).
    { destruct (negb (src_rate audio =? sample_rate args)); [|left; eauto].
      now apply resample_linear_cases. }
    destruct Hres as [[resampled ->]| ->]; cbn [bind]; [|reflexivity].
    rewrite Hspf. cbn [bind]. unfold floordiv. rewrite Z.eqb_refl.
    reflexivity. }
  split; [exact E|]. unfold main. now rewrite E.
Qed.

Lemma zero_samples_per_frame_fails_witness :
  main_encode 42 low_rate_args silence_1s = Raise ZeroDivisionError
  /\ main 42 low_rate_args silence_1s
     = {| file := None; result := Raise ZeroDivisionError |}.
Proof.
  apply (zero_samples_per_frame_fails 42 low_rate_args silence_1s 25);
    vm_compute; reflexivity.
Defined.

(** * Further properties of the code *)

(** ** Frame layout *)

Lemma land_255 (z : Z) : Z.land z 255 = z mod 256.
Proof. change 255 with (Z.ones 8). now rewrite Z.land_ones by lia. Qed.

Lemma sample_bytes_value (s : Z) :
  exists hi lo,
    sample_bytes s = [hi; lo]
    /\ byte.unsigned hi * 256 + byte.unsigned lo = s mod 65536.
Proof.
  unfold sample_bytes. eexists. eexists. split; [reflexivity|].
  rewrite !byte.unsigned_of_Z. unfold byte.wrap.
  rewrite !land_255, Z.shiftr_div_pow2 by lia.
  change (2 ^ 8) with 256. rewrite !Z.mod_mod by lia.
  set (t := if s <? 0 then s + 65536 else s).
  assert (Ht : t mod 65536 = s mod 65536).
  { subst t. destruct (s <? 0); [|reflexivity].
    rewrite <- (Z.mul_1_l 65536) at 1. now rewrite Z.mod_add by lia. }
  rewrite <- Ht. change 65536 with (256 * 256).
  rewrite Z.rem_mul_r by lia. lia.
Qed.

Lemma decode_sample_bytes (s : Z) (rest : list byte) :
  int16 s -> decode_pcm (sample_bytes s ++ rest) = s :: decode_pcm rest.
Proof.
  intros Hs. destruct (sample_bytes_value s) as [hi [lo [E Hv]]].
  rewrite E. cbn [app decode_pcm]. f_equal.
  unfold decode_sample. rewrite Hv. unfold int16 in Hs.
  destruct (Z_lt_le_dec s 0) as [Hneg|Hpos].
  - replace (s mod 65536) with (s + 65536)
      by (apply (Z.mod_unique _ _ (-1)); lia).
    test_false (s + 65536 <? 32768). lia.
  - rewrite Z.mod_small by lia. test_true (s <? 32768). reflexivity.
Qed.

Lemma decode_pcm_flat_map (chunk : list Z) :
  Forall int16 chunk -> decode_pcm (flat_map sample_bytes chunk) = chunk.
Proof.
  induction 1 as [|s chunk Hs _ IH]; [reflexivity|].
  cbn [flat_map]. now rewrite decode_sample_bytes, IH.
Qed.

(** X1. The two bytes stored for a sample are the high and low byte of the
    sample taken modulo 65536, for every integer sample: a value outside
    the 16-bit range is not rejected, it wraps. A 16-bit sample is read
    back unchanged. *)
Theorem sample_bytes_round_trip (s : Z) :
  exists hi lo,
    sample_bytes s = [hi; lo]
    /\ byte.unsigned hi * 256 + byte.unsigned lo = s mod 65536
    /\ (int16 s -> decode_sample hi lo = s).
Proof.
  destruct (sample_bytes_value s) as [hi [lo [E Hv]]].
  exists hi, lo. split; [exact E|]. split; [exact Hv|].
  intros Hs. pose proof (decode_sample_bytes s [] Hs) as H.
  rewrite E in H. cbn [app decode_pcm] in H. congruence.
Qed.

Lemma sample_bytes_round_trip_witness :
  exists hi lo,
    sample_bytes (-2) = [hi; lo]
    /\ byte.unsigned hi * 256 + byte.unsigned lo = (-2) mod 65536
    /\ decode_sample hi lo = -2.
Proof.
  destruct (sample_bytes_round_trip (-2)) as [hi [lo [E [Hv Hd]]]].
  exists hi, lo. repeat split; try assumption.
  apply Hd. unfold int16. lia.
Defined.

Lemma Forall_firstn {A : Type} (P : A -> Prop) (n : nat) (l : list A) :
  Forall P l -> Forall P (firstn n l).
Proof.
  intros H. revert n. induction H as [|x l Hx _ IH]; intros [|n];
    cbn [firstn]; constructor; auto.
Qed.

Lemma Forall_skipn {A : Type} (P : A -> Prop) (n : nat) (l : list A) :
  Forall P l -> Forall P (skipn n l).
Proof.
  intros H. revert n. induction H as [|x l Hx Hl IH]; intros [|n];
    cbn [skipn]; auto.
Qed.

Lemma Forall_slice {A : Type} (P : A -> Prop) (l : list A) (a b : Z) :
  Forall P l -> Forall P (slice l a b).
Proof. intros H. unfold slice. now apply Forall_firstn, Forall_skipn. Qed.

Lemma firstn_plus {A : Type} (a b : nat) (l : list A) :
  firstn (a + b) l = firstn a l ++ firstn b (skipn a l).
Proof.
  revert l. induction a as [|a IH]; intros l; [reflexivity|].
  destruct l as [|x l]; cbn [Nat.add firstn skipn app].
  - now rewrite firstn_nil.
  - now rewrite IH.
Qed.

Lemma range_succ (m : nat) :
  range (Z.of_nat (S m)) = range (Z.of_nat m) ++ [Z.of_nat m].
Proof.
  unfold range. rewrite !Nat2Z.id, seq_S, map_app. reflexivity.
Qed.

Section Chunks.
Variable samples : list Z.
Variable spf : Z.
Hypothesis Hspf : 1 <= spf.

Lemma decode_encode_frame (k : Z) :
  Forall int16 samples ->
  decode_frame (encode_frame samples spf k) = padded_chunk samples spf k.
Proof.
  intros H16. unfold decode_frame, encode_frame.
  cbn [SYNC_MARKER app skipn]. apply decode_pcm_flat_map.
  fold (padded_chunk samples spf k). unfold padded_chunk. cbv zeta.
  destruct (_ <? spf); [|now apply Forall_slice].
  apply Forall_app. split; [now apply Forall_slice|].
  apply Forall_forall. intros x Hx. apply repeat_spec in Hx. subst x.
  unfold int16. lia.
Qed.

Lemma full_chunk (k : Z) :
  0 <= k -> k * spf + spf <= len samples ->
  padded_chunk samples spf k = firstn (Z.to_nat spf) (skipn (Z.to_nat (k * spf)) samples).
Proof.
  intros Hk Hfull. unfold padded_chunk. cbv zeta.
  rewrite len_slice_inside by nia.
  test_false (k * spf + spf - k * spf <? spf).
  rewrite slice_inside by nia. do 2 f_equal. lia.
Qed.

Lemma full_chunks (m : nat) :
  Z.of_nat m * spf <= len samples ->
  flat_map (padded_chunk samples spf) (range (Z.of_nat m))
  = firstn (Z.to_nat (Z.of_nat m * spf)) samples.
Proof.
  induction m as [|m IH]; intros Hm; [reflexivity|].
  rewrite range_succ, flat_map_app, IH by nia.
  cbn [flat_map]. rewrite app_nil_r, full_chunk by nia.
  replace (Z.to_nat (Z.of_nat (S m) * spf))
    with (Z.to_nat (Z.of_nat m * spf) + Z.to_nat spf)%nat by nia.
  now rewrite firstn_plus.
Qed.

Lemma last_chunk (k : Z) :
  0 <= k -> k * spf < len samples -> len samples <= k * spf + spf ->
  padded_chunk samples spf k
  = skipn (Z.to_nat (k * spf)) samples
    ++ repeat 0 (Z.to_nat (k * spf + spf - len samples)).
Proof.
  intros Hk Hlo Hhi. unfold padded_chunk. cbv zeta.
  assert (E : slice samples (k * spf) (k * spf + spf)
              = skipn (Z.to_nat (k * spf)) samples).
  { rewrite slice_nonneg by nia. rewrite Z.min_r, Z.min_l by nia.
    apply firstn_all2. rewrite length_skipn. unfold len. lia. }
  rewrite E.
  assert (Hl : len (skipn (Z.to_nat (k * spf)) samples) = len samples - k * spf).
  { unfold len in *. rewrite length_skipn. lia. }
  rewrite Hl. destruct (len samples - k * spf <? spf) eqn:Et.
  - do 2 f_equal. lia.
  - apply Z.ltb_ge in Et.
    replace (k * spf + spf - len samples) with 0 by lia.
    cbn [Z.to_nat repeat]. now rewrite app_nil_r.
Qed.

Lemma decoded_stream :
  Forall int16 samples ->
  flat_map decode_frame
    (map (encode_frame samples spf) (range (frame_count_of (len samples) spf)))
  = samples
    ++ repeat 0 (Z.to_nat (frame_count_of (len samples) spf * spf - len samples)).
Proof.
  intros H16. pose proof (len_nonneg samples) as Hl.
  pose proof (frame_count_of_nonneg (len samples) spf Hl Hspf) as Hn.
  assert (Hceil : len samples <= frame_count_of (len samples) spf * spf
                  < len samples + spf).
  { unfold frame_count_of.
    pose proof (Z.div_mod (len samples + spf - 1) spf ltac:(lia)).
    pose proof (Z.mod_pos_bound (len samples + spf - 1) spf ltac:(lia)). nia. }
  set (n := frame_count_of (len samples) spf) in *.
  rewrite flat_map_concat_map, map_map, <- flat_map_concat_map.
  rewrite (flat_map_ext _ (padded_chunk samples spf))
    by (intros k; now apply decode_encode_frame).
  destruct (Z.to_nat n) as [|m] eqn:En.
  - assert (n = 0) by lia. assert (len samples = 0) by nia.
    replace n with 0 by lia. destruct samples; [reflexivity|].
    unfold len in *. cbn [length] in *. lia.
  - replace n with (Z.of_nat (S m)) by lia.
    rewrite range_succ, flat_map_app, full_chunks by nia.
    cbn [flat_map]. rewrite app_nil_r, last_chunk by nia.
    rewrite app_assoc, firstn_skipn. do 2 f_equal. lia.
Qed.
End Chunks.

(** X2. For 16-bit samples and a positive frame size, the frames the
    encoder returns all start with the marker 0xAA 0x55, and reading their
    payloads back in order gives the input samples followed by zeros up to
    a whole number of frames: no sample is lost, reordered or altered, and
    the padding is silence. *)
Theorem frames_round_trip (samples : list Z) (spf : Z) (fuel : nat) :
  1 <= spf ->
  Forall int16 samples ->
  (Z.to_nat (frame_count_of (len samples) spf) < fuel)%nat ->
  exists frames,
    samples_to_frame_channels fuel samples spf = Ok frames
    /\ Forall (fun frame => firstn 2 frame = SYNC_MARKER) frames
    /\ flat_map decode_frame frames
       = samples
         ++ repeat 0 (Z.to_nat (frame_count_of (len samples) spf * spf
                                - len samples)).
Proof.
  intros Hspf H16 Hfuel. eexists. split; [|split].
  - now apply samples_to_frame_channels_run.
  - apply Forall_forall. intros frame Hin. apply in_map_iff in Hin.
    destruct Hin as [k [<- _]]. reflexivity.
  - now apply decoded_stream.
Qed.

Lemma frames_round_trip_witness :
  exists frames,
    samples_to_frame_channels 3 [1; -2; 300] 2 = Ok frames
    /\ Forall (fun frame => firstn 2 frame = SYNC_MARKER) frames
    /\ flat_map decode_frame frames = [1; -2; 300] ++ repeat 0 1.
Proof.
  apply (frames_round_trip [1; -2; 300] 2 3).
  - lia.
  - repeat constructor; unfold int16; lia.
  - vm_compute. lia.
Defined.

(** ** Standalone writer *)

Lemma len_concat_uniform (rows : list (list byte)) (w : Z) :
  Forall (fun row => len row = w) rows -> len (concat rows) = len rows * w.
Proof.
  induction 1 as [|row rows Hrow _ IH]; [reflexivity|].
  cbn [concat]. rewrite len_app, IH, Hrow. unfold len. cbn [length]. lia.
Qed.

Lemma channel_data_offset_aligned (n : Z) :
  channel_data_offset_of n mod 4 = 0
  /\ 32 + n <= channel_data_offset_of n < 32 + n + 4.
Proof. unfold channel_data_offset_of. Z.div_mod_to_equations. lia. Qed.

Lemma write_frames_all (frames : list (list byte)) (cpf : Z) (f : list byte) :
  Forall (fun frame => len frame = cpf) frames ->
  write_frames frames cpf f = (f ++ concat frames, Ok tt).
Proof.
  intros H. revert f. induction H as [|frame rest Hf _ IH]; intros f;
    cbn [write_frames concat].
  - now rewrite app_nil_r.
  - rewrite Hf, Z.eqb_refl, IH. now rewrite app_assoc.
Qed.

Lemma write_frames_stop (good : list (list byte)) (bad : list byte)
    (rest : list (list byte)) (cpf : Z) (f : list byte) :
  Forall (fun frame => len frame = cpf) good ->
  len bad <> cpf ->
  write_frames (good ++ bad :: rest) cpf f
  = (f ++ concat good, Raise AssertionError).
Proof.
  intros H Hbad. revert f. induction H as [|frame good Hf _ IH]; intros f;
    cbn [write_frames concat app].
  - apply Z.eqb_neq in Hbad. now rewrite Hbad, app_nil_r.
  - rewrite Hf, Z.eqb_refl, IH. now rewrite app_assoc.
Qed.

Lemma slice_app_middle {A : Type} (a b c : list A) :
  slice (a ++ b ++ c) (len a) (len a + len b) = b.
Proof.
  pose proof (len_nonneg a). pose proof (len_nonneg b).
  pose proof (len_nonneg c).
  rewrite slice_inside by (rewrite ?len_app; lia).
  unfold len. rewrite Nat2Z.id, skipn_app, skipn_all, Nat.sub_diag.
  cbn [skipn app].
  replace (Z.to_nat (Z.of_nat (length a) + Z.of_nat (length b)
                     - Z.of_nat (length a))) with (length b) by lia.
  rewrite firstn_app, firstn_all, Nat.sub_diag. cbn [firstn].
  now rewrite app_nil_r.
Qed.

(** The file a successful call writes, in its parts. *)
Lemma write_fseq_v2_run (frames : list (list byte)) (cpf st : Z)
    (vh : list byte) :
  0 <= cpf < 2 ^ 32 -> len frames < 2 ^ 32 -> 0 <= st < 2 ^ 8 ->
  channel_data_offset_of (len vh) < 2 ^ 16 ->
  exists header,
    fixed_header (channel_data_offset_of (len vh)) cpf (len frames) st
    = Ok header
    /\ len header = 32
    /\ (forall rest,
          read_fseq_header (header ++ rest)
          = Ok (written_header (channel_data_offset_of (len vh)) cpf
                  (len frames) st))
    /\ write_fseq_v2 frames cpf st vh
       = let prefix :=
           header ++ vh ++ zeros (channel_data_offset_of (len vh) - 32 - len vh) in
         let '(f, r) := write_frames frames cpf prefix in
         {| file := Some f;
            result :=
              _ <- r ;;
              Ok (channel_data_offset_of (len vh) + len frames * cpf) |}.
Proof.
  intros Hcpf Hn Hst Hoff. pose proof (len_nonneg vh) as Hvh.
  pose proof (len_nonneg frames) as Hfr.
  pose proof (channel_data_offset_aligned (len vh)) as [_ Hrange].
  assert (Hvalid : valid_header
                     (written_header (channel_data_offset_of (len vh)) cpf
                        (len frames) st)).
  { unfold valid_header, written_header. cbn. repeat split; lia. }
  destruct (read_encoded_header _ [] Hvalid) as [header [E [Hlen _]]].
  exists header. rewrite fixed_header_encode. split; [exact E|].
  split; [exact Hlen|]. split.
  - intros rest.
    destruct (read_encoded_header _ rest Hvalid) as [header' [E' [_ R]]].
    congruence.
  - unfold write_fseq_v2.
    fold (channel_data_offset_of (len vh)).
    rewrite fixed_header_encode, E, Hlen. cbn [Z.eqb Pos.eqb].
    replace (channel_data_offset_of (len vh) - 32 - len vh)
      with ((4 - (32 + len vh) mod 4) mod 4)
      by (unfold channel_data_offset_of; lia).
    set (padding := (4 - (32 + len vh) mod 4) mod 4).
    assert (Epre : (if 0 <? padding
                    then (header ++ vh) ++ zeros padding
                    else header ++ vh)
                   = header ++ vh ++ zeros padding).
    { destruct (0 <? padding) eqn:Ep; [now rewrite app_assoc|].
      apply Z.ltb_ge in Ep.
      assert (padding = 0) by (subst padding; Z.div_mod_to_equations; lia).
      replace padding with 0 by lia. cbn [zeros Z.to_nat repeat].
      now rewrite !app_nil_r. }
    rewrite Epre. reflexivity.
Qed.

(** X3. Write then read: when every frame has the declared width and the
    header values fit their fields, [write_fseq_v2] writes a file whose
    header reads back as the dimensions and step time it was given, whose
    variable header starts at byte 32, and whose bytes from the data offset
    on are exactly the frames in order. *)
Theorem write_then_read (frames : list (list byte)) (cpf st : Z)
    (vh : list byte) :
  Forall (fun frame => len frame = cpf) frames ->
  0 <= cpf < 2 ^ 32 -> len frames < 2 ^ 32 -> 0 <= st < 2 ^ 8 ->
  channel_data_offset_of (len vh) < 2 ^ 16 ->
  exists out,
    file (write_fseq_v2 frames cpf st vh) = Some out
    /\ read_fseq_header out
       = Ok (written_header (channel_data_offset_of (len vh)) cpf
               (len frames) st)
    /\ slice out 32 (32 + len vh) = vh
    /\ slice_from out (channel_data_offset_of (len vh)) = concat frames.
Proof.
  intros Hall Hcpf Hn Hst Hoff.
  destruct (write_fseq_v2_run frames cpf st vh Hcpf Hn Hst Hoff)
    as [header [_ [Hlen [Hread Hrun]]]].
  rewrite Hrun. cbv zeta. rewrite write_frames_all by assumption.
  cbn [file]. eexists. split; [reflexivity|].
  pose proof (len_nonneg vh) as Hvh.
  pose proof (channel_data_offset_aligned (len vh)) as [_ Hrange].
  split; [|split].
  - rewrite <- app_assoc. apply Hread.
  - rewrite <- !app_assoc, <- Hlen. apply slice_app_middle.
  - apply slice_from_prefix.
    rewrite !len_app, len_zeros by lia. lia.
Qed.

Lemma write_then_read_witness :
  exists out,
    file (write_fseq_v2 [[Byte.xaa; Byte.x55; Byte.x00; Byte.x01]] 4 25
            [Byte.x6d; Byte.x66])
    = Some out
    /\ read_fseq_header out = Ok (written_header 36 4 1 25)
    /\ slice out 32 (32 + 2) = [Byte.x6d; Byte.x66]
    /\ slice_from out 36 = concat [[Byte.xaa; Byte.x55; Byte.x00; Byte.x01]].
Proof.
  apply (write_then_read [[Byte.xaa; Byte.x55; Byte.x00; Byte.x01]] 4 25
           [Byte.x6d; Byte.x66]).
  - repeat constructor.
  - lia.
  - vm_compute. reflexivity.
  - lia.
  - vm_compute. reflexivity.
Defined.

(** X4. The size [write_fseq_v2] returns is the number of bytes it wrote,
    and the channel data it wrote starts on a 4-byte boundary, at most 3
    zero bytes after the variable header. *)
Theorem written_size_and_alignment (frames : list (list byte)) (cpf st : Z)
    (vh : list byte) :
  Forall (fun frame => len frame = cpf) frames ->
  0 <= cpf < 2 ^ 32 -> len frames < 2 ^ 32 -> 0 <= st < 2 ^ 8 ->
  channel_data_offset_of (len vh) < 2 ^ 16 ->
  exists out,
    write_fseq_v2 frames cpf st vh
    = {| file := Some out; result := Ok (len out) |}
    /\ len out = channel_data_offset_of (len vh) + len frames * cpf
    /\ channel_data_offset_of (len vh) mod 4 = 0
    /\ 32 + len vh <= channel_data_offset_of (len vh) < 32 + len vh + 4
    /\ slice out (32 + len vh) (channel_data_offset_of (len vh))
       = zeros (channel_data_offset_of (len vh) - 32 - len vh).
Proof.
  intros Hall Hcpf Hn Hst Hoff.
  destruct (write_fseq_v2_run frames cpf st vh Hcpf Hn Hst Hoff)
    as [header [_ [Hlen [_ Hrun]]]].
  pose proof (len_nonneg vh) as Hvh.
  pose proof (channel_data_offset_aligned (len vh)) as [Hal Hrange].
  set (off := channel_data_offset_of (len vh)) in *.
  assert (Hsize : len ((header ++ vh ++ zeros (off - 32 - len vh))
                       ++ concat frames) = off + len frames * cpf).
  { rewrite !len_app, len_zeros, (len_concat_uniform frames cpf) by
      (assumption || lia). lia. }
  eexists. split; [|split; [exact Hsize|split; [exact Hal|split; [exact Hrange|]]]].
  - rewrite Hrun. cbv zeta. rewrite write_frames_all by assumption.
    cbn [bind]. now rewrite Hsize.
  - assert (Hz : len (zeros (off - 32 - len vh)) = off - 32 - len vh)
      by (apply len_zeros; lia).
    set (z := zeros (off - 32 - len vh)) in *.
    rewrite (app_assoc header vh), <- app_assoc.
    replace (32 + len vh) with (len (header ++ vh)) by (rewrite len_app; lia).
    replace off with (len (header ++ vh) + len z) by (rewrite len_app; lia).
    apply slice_app_middle.
Qed.

Lemma written_size_and_alignment_witness :
  exists out,
    write_fseq_v2 [[Byte.xaa; Byte.x55; Byte.x00; Byte.x01]] 4 25
      [Byte.x6d; Byte.x66]
    = {| file := Some out; result := Ok (len out) |}
    /\ len out = 36 + 1 * 4
    /\ 36 mod 4 = 0
    /\ 32 + 2 <= 36 < 32 + 2 + 4
    /\ slice out (32 + 2) 36 = zeros (36 - 32 - 2).
Proof.
  apply (written_size_and_alignment
           [[Byte.xaa; Byte.x55; Byte.x00; Byte.x01]] 4 25
           [Byte.x6d; Byte.x66]).
  - repeat constructor.
  - lia.
  - vm_compute. reflexivity.
  - lia.
  - vm_compute. reflexivity.
Defined.

Lemma pack_cases (width : nat) (v : Z) :
  pack width v = Ok (le_split width v) \/ pack width v = Raise StructError.
Proof. unfold pack. destruct (_ && _); auto. Qed.

Lemma pack_out_of_range (width : nat) (v : Z) :
  ~ 0 <= v < 2 ^ (Z.of_nat width * 8) -> pack width v = Raise StructError.
Proof.
  intros Hv. unfold pack.
  destruct (0 <=? v) eqn:E0; [|reflexivity].
  destruct (v <? 2 ^ (Z.of_nat width * 8)) eqn:E1; [|reflexivity].
  apply Z.leb_le in E0. apply Z.ltb_lt in E1. lia.
Qed.

(** A header value that does not fit its field makes the header block
    fail as a whole. *)
Lemma fixed_header_out_of_range (off cpf fc st : Z) :
  ~ 0 <= off < 2 ^ 16 \/ ~ 0 <= cpf < 2 ^ 32 \/ ~ 0 <= fc < 2 ^ 32
  \/ ~ 0 <= st < 2 ^ 8 ->
  fixed_header off cpf fc st = Raise StructError.
Proof.
  intros H.
  assert (Hfail : pack 2 off = Raise StructError
                  \/ pack 4 cpf = Raise StructError
                  \/ pack 4 fc = Raise StructError
                  \/ pack 1 st = Raise StructError).
  { destruct H as [H|[H|[H|H]]]; [left|right; left|right; right; left|
                                   right; right; right];
      now apply pack_out_of_range. }
  unfold fixed_header.
  repeat match goal with
         | |- bind (pack ?w ?v) _ = Raise StructError =>
             let E := fresh "E" in
             destruct (pack_cases w v) as [E|E]; rewrite E; cbn [bind];
             [|reflexivity]
         end.
  destruct Hfail as [F|[F|[F|F]]]; congruence.
Qed.

(** X5. A value that does not fit its header field (a step time above
    255 ms, a frame width or frame count of 2^32 or more, a data offset of
    2^16 or more, or a negative one) makes [write_fseq_v2] raise
    [struct.error] before the output file is opened: nothing is written. *)
Theorem header_error_writes_nothing (frames : list (list byte)) (cpf st : Z)
    (vh : list byte) :
  ~ 0 <= st < 2 ^ 8 \/ ~ 0 <= cpf < 2 ^ 32 \/ 2 ^ 32 <= len frames
  \/ 2 ^ 16 <= channel_data_offset_of (len vh) ->
  write_fseq_v2 frames cpf st vh
  = {| file := None; result := Raise StructError |}.
Proof.
  intros H. unfold write_fseq_v2.
  fold (channel_data_offset_of (len vh)).
  rewrite fixed_header_out_of_range; [reflexivity|].
  destruct H as [H|[H|[H|H]]]; [right; right; right|right; left|
                                 right; right; left|left]; lia.
Qed.

Lemma header_error_writes_nothing_witness :
  write_fseq_v2 [[Byte.xaa; Byte.x55]] 2 500 []
  = {| file := None; result := Raise StructError |}.
Proof.
  apply (header_error_writes_nothing [[Byte.xaa; Byte.x55]] 2 500 []).
  left. lia.
Defined.

(** X6. When a frame does not have the declared width, the size assertion
    stops [write_fseq_v2] at the first such frame: the file is left holding
    the header block and exactly the frames before it. *)
Theorem size_mismatch_leaves_partial_file (good : list (list byte))
    (bad : list byte) (rest : list (list byte)) (cpf st : Z) (vh : list byte) :
  Forall (fun frame => len frame = cpf) good ->
  len bad <> cpf ->
  0 <= cpf < 2 ^ 32 -> len (good ++ bad :: rest) < 2 ^ 32 -> 0 <= st < 2 ^ 8 ->
  channel_data_offset_of (len vh) < 2 ^ 16 ->
  exists prefix,
    len prefix = channel_data_offset_of (len vh)
    /\ write_fseq_v2 (good ++ bad :: rest) cpf st vh
       = {| file := Some (prefix ++ concat good);
            result := Raise AssertionError |}.
Proof.
  intros Hgood Hbad Hcpf Hn Hst Hoff.
  destruct (write_fseq_v2_run (good ++ bad :: rest) cpf st vh Hcpf Hn Hst Hoff)
    as [header [_ [Hlen [_ Hrun]]]].
  pose proof (len_nonneg vh) as Hvh.
  pose proof (channel_data_offset_aligned (len vh)) as [_ Hrange].
  eexists. split; [|rewrite Hrun; cbv zeta;
                    rewrite write_frames_stop by assumption; reflexivity].
  rewrite !len_app, len_zeros by lia. lia.
Qed.

Lemma size_mismatch_leaves_partial_file_witness :
  exists prefix,
    len prefix = channel_data_offset_of (len (@nil byte))
    /\ write_fseq_v2 ([[Byte.xaa; Byte.x55]] ++ [Byte.xaa] :: []) 2 25 []
       = {| file := Some (prefix ++ concat [[Byte.xaa; Byte.x55]]);
            result := Raise AssertionError |}.
Proof.
  apply (size_mismatch_leaves_partial_file [[Byte.xaa; Byte.x55]] [Byte.xaa]
           [] 2 25 []).
  - repeat constructor.
  - vm_compute. discriminate.
  - lia.
  - vm_compute. reflexivity.
  - lia.
  - vm_compute. reflexivity.
Defined.

(** ** Header reader *)

(** X7. [read_fseq_header] looks at the first 23 bytes only. A file that
    does not start with "PSEQ" (an empty or shorter file included) raises
    [ValueError]; one that does but is shorter than 23 bytes raises
    [struct.error]; every other file is read, whatever its version,
    compression or remaining contents, and each field read fits its
    width. *)
Theorem read_fseq_header_cases (file : list byte) :
  (firstn 4 file <> FSEQ_MAGIC -> read_fseq_header file = Raise ValueError)
  /\ (firstn 4 file = FSEQ_MAGIC -> (length file < 23)%nat ->
      read_fseq_header file = Raise StructError)
  /\ (firstn 4 file = FSEQ_MAGIC -> (23 <= length file)%nat ->
      exists info,
        read_fseq_header file = Ok info
        /\ valid_header info
        /\ read_fseq_header (firstn 23 file) = Ok info).
Proof.
  split; [|split].
  - intros Hmagic. unfold read_fseq_header, read.
    destruct (list_eq_dec Byte.byte_eq_dec (firstn 4 file) FSEQ_MAGIC);
      [contradiction | reflexivity].
  - intros Hmagic Hlen.
    do 4 (destruct file as [|? file]; [discriminate Hmagic|]).
    cbn [firstn] in Hmagic. injection Hmagic as -> -> -> ->.
    do 19 (destruct file as [|? file]; [reflexivity|]).
    cbn [length] in Hlen. lia.
  - intros Hmagic Hlen.
    do 4 (destruct file as [|? file]; [discriminate Hmagic|]).
    cbn [firstn] in Hmagic. injection Hmagic as -> -> -> ->.
    do 19 (destruct file as [|? file]; [cbn [length] in Hlen; lia|]).
    clear Hlen.
    match goal with
    | |- exists info, read_fseq_header ?f = Ok info /\ _ =>
        destruct (read_fseq_header f) as [info| |] eqn:E;
        [|vm_compute in E; discriminate E|vm_compute in E; discriminate E]
    end.
    exists info. split; [reflexivity|].
    split; [exact (read_fseq_header_valid _ _ E)|].
    rewrite <- E. vm_compute. reflexivity.
Qed.

Lemma read_fseq_header_cases_witness :
  read_fseq_header [Byte.x50; Byte.x53; Byte.x45] = Raise ValueError
  /\ read_fseq_header (FSEQ_MAGIC ++ [Byte.x48; Byte.x00])
     = Raise StructError
  /\ exists info,
       read_fseq_header (light_4x10) = Ok info
       /\ valid_header info
       /\ read_fseq_header (firstn 23 light_4x10) = Ok info.
Proof.
  split; [|split].
  - apply (proj1 (read_fseq_header_cases [Byte.x50; Byte.x53; Byte.x45])).
    vm_compute. discriminate.
  - apply (proj1 (proj2 (read_fseq_header_cases
                           (FSEQ_MAGIC ++ [Byte.x48; Byte.x00])))).
    + reflexivity.
    + vm_compute. lia.
  - apply (proj2 (proj2 (read_fseq_header_cases light_4x10))).
    + vm_compute. reflexivity.
    + vm_compute. lia.
Defined.

(** ** Merger: rejections and the file it leaves *)

(** X8. [merge_into_fseq] gives up before the output file is opened, so
    that nothing is written, when the target cannot be read (the reader's
    exception is passed on), when its header reports a compression type
    other than 0, and when its major version is not 2 (both exit with
    status 1); the compression check comes first. *)
Theorem merge_rejections_write_nothing (audio_frames : list (list byte))
    (acpf : Z) (merge_file : list byte) (sc : Z) :
  (forall e,
      read_fseq_header merge_file = Raise e ->
      merge_into_fseq audio_frames acpf merge_file sc
      = {| file := None; result := Raise e |})
  /\ (forall info,
        read_fseq_header merge_file = Ok info ->
        compression info <> 0 ->
        merge_into_fseq audio_frames acpf merge_file sc
        = {| file := None; result := Raise (SystemExit 1) |})
  /\ (forall info,
        read_fseq_header merge_file = Ok info ->
        compression info = 0 ->
        fst (version info) <> 2 ->
        merge_into_fseq audio_frames acpf merge_file sc
        = {| file := None; result := Raise (SystemExit 1) |}).
Proof.
  split; [|split].
  - intros e E. unfold merge_into_fseq. now rewrite E.
  - intros info E Hc. unfold merge_into_fseq. rewrite E. cbn [bind].
    apply Z.eqb_neq in Hc. now rewrite Hc.
  - intros info E Hc Hv. unfold merge_into_fseq. rewrite E. cbn [bind].
    apply Z.eqb_neq in Hv. now rewrite Hc, Hv.
Qed.

Lemma merge_rejections_write_nothing_witness :
  merge_into_fseq audio_6x15 6 [Byte.x50; Byte.x53] 4
  = {| file := None; result := Raise ValueError |}.
Proof.
  apply (proj1 (merge_rejections_write_nothing audio_6x15 6
                  [Byte.x50; Byte.x53] 4)).
  vm_compute. reflexivity.
Defined.








(** ** Variable header *)

Lemma build_variable_header_run (basename : list byte) :
  len basename + 1 < 2 ^ 16 ->
  build_variable_header basename
  = Ok (Text.mf_code ++ le_split 2 (len basename + 1)
          ++ (basename ++ [Byte.x00])
          ++ Text.sp_code ++ le_split 2 25
          ++ (Text.producer ++ [Byte.x00])).
Proof.
  intros Hfit. pose proof (len_nonneg basename) as Hl.
  unfold build_variable_header.
  replace (len (basename ++ [Byte.x00])) with (len basename + 1)
    by (rewrite len_app; reflexivity).
  rewrite pack_ok by (change (Z.of_nat 2 * 8) with 16; lia).
  cbn [bind]. reflexivity.
Qed.

Lemma len_variable_header (basename : list byte) :
  len (Text.mf_code ++ le_split 2 (len basename + 1)
         ++ (basename ++ [Byte.x00])
         ++ Text.sp_code ++ le_split 2 25
         ++ (Text.producer ++ [Byte.x00]))
  = len basename + 34.
Proof.
  unfold len. rewrite !length_app, !length_le_split.
  change (length Text.mf_code) with 2%nat.
  change (length Text.sp_code) with 2%nat.
  change (length Text.producer) with 24%nat.
  cbn [length]. lia.
Qed.

(** X11. The variable header is two records, each a 2-byte tag, the
    length of the value as a little-endian u16 and the NUL-terminated
    value: "mf" with the file name, then "sp" with the producer string. It
    is [len(name) + 34] bytes long, and a name of 65535 bytes or more
    raises [struct.error]. *)
Theorem variable_header_layout (basename : list byte) :
  (len basename + 1 < 2 ^ 16 ->
   exists vh,
     build_variable_header basename = Ok vh
     /\ vh = Text.mf_code ++ le_split 2 (len basename + 1)
                ++ (basename ++ [Byte.x00])
                ++ Text.sp_code ++ le_split 2 25
                ++ (Text.producer ++ [Byte.x00])
     /\ len vh = len basename + 34)
  /\ (2 ^ 16 <= len basename + 1 ->
      build_variable_header basename = Raise StructError).
Proof.
  pose proof (len_nonneg basename) as Hl.
  assert (Hmf : len (basename ++ [Byte.x00]) = len basename + 1)
    by (rewrite len_app; reflexivity).
  split.
  - intros Hfit. eexists. split; [|split; [reflexivity|]].
    + now apply build_variable_header_run.
    + apply len_variable_header.
  - intros Hbig. unfold build_variable_header. rewrite Hmf.
    rewrite pack_out_of_range by (change (Z.of_nat 2 * 8) with 16; lia).
    reflexivity.
Qed.

Lemma variable_header_layout_witness :
  exists vh,
    build_variable_header Text.merged = Ok vh
    /\ vh = Text.mf_code ++ le_split 2 (len Text.merged + 1)
               ++ (Text.merged ++ [Byte.x00])
               ++ Text.sp_code ++ le_split 2 25
               ++ (Text.producer ++ [Byte.x00])
    /\ len vh = len Text.merged + 34.
Proof.
  apply (proj1 (variable_header_layout Text.merged)).
  vm_compute. reflexivity.
Defined.

(** ** Mono mix: totality, range and edge cases *)

Lemma sum_shift (l : list Z) (a : Z) : fold_left Z.add l a = a + sum l.
Proof.
  unfold sum. revert a. induction l as [|x l IH]; intros a; cbn [fold_left].
  - lia.
  - rewrite (IH (a + x)), (IH (0 + x)). lia.
Qed.

Lemma sum_cons (x : Z) (l : list Z) : sum (x :: l) = x + sum l.
Proof. unfold sum at 1. cbn [fold_left]. rewrite sum_shift. lia. Qed.

Lemma sum_bounds (l : list Z) :
  Forall int16 l -> -32768 * len l <= sum l <= 32767 * len l.
Proof.
  induction 1 as [|x l Hx _ IH]; [cbn; lia|].
  rewrite sum_cons. unfold int16 in Hx. unfold len in *. cbn [length]. lia.
Qed.

Lemma to_mono_run (samples : list Z) (n : Z) :
  1 <= n ->
  Forall int16 samples ->
  exists mono,
    to_mono samples n = Ok mono
    /\ len mono = (len samples + n - 1) / n
    /\ Forall int16 mono.
Proof.
  intros Hn H16. pose proof (len_nonneg samples) as Hl.
  unfold to_mono. destruct (n =? 1) eqn:E1.
  - apply Z.eqb_eq in E1. subst n. exists samples.
    split; [reflexivity|]. split; [|assumption].
    replace (len samples + 1 - 1) with (len samples) by lia.
    now rewrite Z.div_1_r.
  - rewrite range3_forward by lia. cbn [bind].
    set (count := (len samples + n - 1) / n).
    assert (Hcount : 0 <= count) by (apply Z.div_pos; lia).
    match goal with
    | |- context [mapM ?body ?starts] =>
        destruct (mapM_Forall int16 body starts) as [mono [E [Hlen Hall]]]
    end.
    + intros i Hi. apply in_map_iff in Hi. destruct Hi as [k [<- Hk]].
      apply in_seq in Hk.
      assert (Hlt : Z.of_nat k * n < len samples).
      { pose proof (loop_guard (len samples) n (Z.of_nat k) Hn) as G.
        fold count in G. unfold frame_count_of in G.
        destruct (Z.of_nat k * n <? len samples) eqn:Et;
          [now apply Z.ltb_lt in Et|].
        symmetry in G. apply Z.ltb_ge in G. subst count. lia. }
      set (chunk := slice samples (0 + Z.of_nat k * n) (0 + Z.of_nat k * n + n)).
      assert (Hc16 : Forall int16 chunk) by (now apply Forall_slice).
      assert (Hclen : 1 <= len chunk).
      { subst chunk. rewrite slice_nonneg by lia. unfold len in *.
        rewrite length_firstn, length_skipn. lia. }
      unfold floordiv. test_false (len chunk =? 0).
      eexists. split; [reflexivity|].
      pose proof (sum_bounds chunk Hc16) as Hs. unfold int16.
      pose proof (Z.div_mod (sum chunk) (len chunk) ltac:(lia)).
      pose proof (Z.mod_pos_bound (sum chunk) (len chunk) ltac:(lia)). nia.
    + exists mono. split; [exact E|]. split; [|exact Hall].
      unfold len at 1. rewrite Hlen, length_map, length_seq. lia.
Qed.

(** X12. For a channel count of 1 or more [to_mono] never fails, whatever
    the length of the list: it returns [ceil(len / n_channels)] samples (a
    short last group is averaged over its own length), and every one of
    them is a 16-bit value when the input samples are. *)
Theorem to_mono_total (samples : list Z) (n : Z) :
  1 <= n ->
  Forall int16 samples ->
  exists mono,
    to_mono samples n = Ok mono
    /\ len mono = (len samples + n - 1) / n
    /\ Forall int16 mono.
Proof. exact (to_mono_run samples n). Qed.

Lemma to_mono_total_witness :
  exists mono,
    to_mono [32767; 32767; -32768] 2 = Ok mono
    /\ len mono = (len [32767; 32767; -32768] + 2 - 1) / 2
    /\ Forall int16 mono.
Proof.
  apply (to_mono_total [32767; 32767; -32768] 2).
  - lia.
  - repeat constructor; unfold int16; lia.
Defined.

(** X13. Outside that range [to_mono] does not average anything: a
    channel count of 0 raises [ValueError] (the step of the range), and a
    negative one returns an empty list, dropping every sample without an
    error. *)
Theorem to_mono_degenerate (samples : list Z) (n : Z) :
  (n = 0 -> to_mono samples n = Raise ValueError)
  /\ (n < 0 -> to_mono samples n = Ok []).
Proof.
  split.
  - intros ->. reflexivity.
  - intros Hn. pose proof (len_nonneg samples) as Hl.
    unfold to_mono, range3. test_false (n =? 1). test_false (n =? 0).
    test_false (0 <? n). rewrite Z.sub_0_l.
    assert (Hc : (- len samples - n - 1) / - n < 1)
      by (apply Z.div_lt_upper_bound; lia).
    replace (Z.to_nat ((- len samples - n - 1) / - n)) with 0%nat by lia.
    reflexivity.
Qed.

Lemma to_mono_degenerate_witness :
  to_mono [1; 2; 3] (-2) = Ok [].
Proof.
  apply (proj2 (to_mono_degenerate [1; 2; 3] (-2))). lia.
Defined.

(** ** Resampler: edge cases *)



(** ** The driver: what [main] keeps between its steps *)

Lemma samples_to_frame_channels_inv (samples : list Z) (spf : Z) (fuel : nat)
    (frames : list (list byte)) :
  1 <= spf ->
  samples_to_frame_channels fuel samples spf = Ok frames ->
  frames
  = map (encode_frame samples spf) (range (frame_count_of (len samples) spf)).
Proof.
  intros Hspf E.
  set (fuel2 := Nat.max fuel (S (Z.to_nat (frame_count_of (len samples) spf)))).
  unfold samples_to_frame_channels in E.
  apply (frame_loop_more_fuel samples spf fuel fuel2 ltac:(lia)) in E.
  pose proof (samples_to_frame_channels_run samples spf fuel2 Hspf ltac:(lia))
    as R.
  unfold samples_to_frame_channels in R. congruence.
Qed.

Lemma samples_to_frame_channels_negative (samples : list Z) (spf : Z)
    (fuel : nat) (frames : list (list byte)) :
  spf <= 0 ->
  samples_to_frame_channels fuel samples spf = Ok frames ->
  samples = [] /\ frames = [].
Proof.
  intros Hspf E. unfold samples_to_frame_channels in E.
  destruct samples as [|s samples].
  - split; [reflexivity|]. destruct fuel; cbn in E; congruence.
  - rewrite frame_loop_stuck in E; [discriminate|assumption| |lia].
    unfold len. cbn [length]. lia.
Qed.

Lemma main_encode_inv (fuel : nat) (args : Args) (audio : Audio)
    (enc : Encoded) :
  main_encode fuel args audio = Ok enc ->
  exists (mixed resampled : list Z) (n : Z),
    main_step_time args = Ok (step_time_ms enc)
    /\ (if negb (stereo args) || (n_channels audio =? 1)
        then to_mono (samples audio) (n_channels audio) = Ok mixed /\ n = 1
        else mixed = samples audio /\ n = n_channels audio)
    /\ (if negb (src_rate audio =? sample_rate args)
        then resample_linear mixed (src_rate audio) (sample_rate args)
             = Ok resampled
        else resampled = mixed)
    /\ main_samples_per_frame (sample_rate args) (step_time_ms enc)
       = Ok (samples_per_frame enc)
    /\ channels_per_frame enc = 2 + samples_per_frame enc * 2 * n
    /\ samples_per_frame enc <> 0
    /\ total_frames enc
       = (len resampled + samples_per_frame enc - 1) / samples_per_frame enc
    /\ samples_to_frame_channels fuel resampled (samples_per_frame enc)
       = Ok (frames enc).
Proof.
  unfold main_encode. intros H.
  destruct (main_step_time args) as [st| |] eqn:Est; cbn [bind] in H;
    try discriminate.
  destruct (Float.truediv 1000 st) as [x| |]; cbn [bind] in H;
    try discriminate.
  destruct (Float.truediv (len (samples audio)) (n_channels audio))
    as [pc| |]; cbn [bind] in H; try discriminate.
  destruct (Float.div_int pc (src_rate audio)) as [d| |]; cbn [bind] in H;
    try discriminate.
  destruct (floordiv (len (samples audio)) (n_channels audio)) as [c| |];
    cbn [bind] in H; try discriminate.
  match type of H with
  | bind ?m _ = _ => destruct m as [[mixed n]| |] eqn:Emix
  end; cbn [bind] in H; try discriminate.
  match type of H with
  | bind ?m _ = _ => destruct m as [resampled| |] eqn:Eres
  end; cbn [bind] in H; try discriminate.
  destruct (main_samples_per_frame (sample_rate args) st) as [spf| |] eqn:Espf;
    cbn [bind] in H; try discriminate.
  destruct (floordiv (len resampled + spf - 1) spf) as [tf| |] eqn:Etf;
    cbn [bind] in H; try discriminate.
  destruct (samples_to_frame_channels fuel resampled spf) as [fr| |] eqn:Efr;
    cbn [bind] in H; try discriminate.
  injection H as <-. cbn [step_time_ms samples_per_frame channels_per_frame
    total_frames frames].
  exists mixed, resampled, n.
  split; [reflexivity|]. split.
  { destruct (negb (stereo args) || (n_channels audio =? 1)).
    - destruct (to_mono (samples audio) (n_channels audio)) as [m| |];
        cbn [bind] in Emix; try discriminate.
      injection Emix as <- <-. auto.
    - injection Emix as <- <-. auto. }
  split.
  { destruct (negb (src_rate audio =? sample_rate args));
      [exact Eres | congruence]. }
  split; [exact Espf|]. split; [reflexivity|].
  pose proof (floordiv_ok _ _ _ Etf) as Hnz.
  split; [exact Hnz|]. split; [|exact Efr].
  unfold floordiv in Etf. test_false (spf =? 0). congruence.
Qed.

(** X15. Whenever [main] gets as far as a list of encoded frames: with a
    frame size of 1 or more, the frame count it prints is the number of
    frames encoded, every frame starts with the sync marker and is
    [2 + 2 * samples_per_frame] bytes long, and in mono mode (no [--stereo],
    or one input channel) that is the width declared to the writer. A
    negative frame size only gets this far with no samples and no frames. *)
Theorem encoded_frames_invariants (fuel : nat) (args : Args) (audio : Audio)
    (enc : Encoded) :
  main_encode fuel args audio = Ok enc ->
  (1 <= samples_per_frame enc ->
   total_frames enc = len (frames enc)
   /\ Forall (fun frame =>
                firstn 2 frame = SYNC_MARKER
                /\ len frame = 2 + samples_per_frame enc * 2)
             (frames enc)
   /\ (stereo args = false \/ n_channels audio = 1 ->
       channels_per_frame enc = 2 + samples_per_frame enc * 2))
  /\ (samples_per_frame enc < 1 -> frames enc = []).
Proof.
  intros H. apply main_encode_inv in H.
  destruct H as [mixed [resampled [n [_ [Hmix [_ [_ [Hcpf [Hnz [Htf Hfr]]]]]]]]]].
  split.
  - intros Hspf.
    apply samples_to_frame_channels_inv in Hfr; [|assumption].
    rewrite Hfr. split; [|split].
    + unfold len at 1. rewrite length_map, range_length.
      rewrite Htf. fold (frame_count_of (len resampled) (samples_per_frame enc)).
      pose proof (frame_count_of_nonneg (len resampled) (samples_per_frame enc)).
      pose proof (len_nonneg resampled). lia.
    + apply Forall_forall. intros frame Hin. apply in_map_iff in Hin.
      destruct Hin as [k [<- Hk]]. apply range_In in Hk.
      split; [reflexivity|]. apply encode_frame_length; lia.
    + intros Hmono.
      assert (Hn : n = 1).
      { destruct Hmono as [E|E]; rewrite E in Hmix; cbn in Hmix; [tauto|].
        rewrite orb_true_r in Hmix. tauto. }
      rewrite Hcpf, Hn. lia.
  - intros Hneg.
    apply samples_to_frame_channels_negative in Hfr; [tauto|lia].
Qed.

Lemma encoded_frames_invariants_witness :
  (1 <= samples_per_frame three_samples_encoded ->
   total_frames three_samples_encoded = len (frames three_samples_encoded)
   /\ Forall (fun frame =>
                firstn 2 frame = SYNC_MARKER
                /\ len frame = 2 + samples_per_frame three_samples_encoded * 2)
             (frames three_samples_encoded)
   /\ (stereo default_args = false \/ n_channels three_samples = 1 ->
       channels_per_frame three_samples_encoded
       = 2 + samples_per_frame three_samples_encoded * 2))
  /\ (samples_per_frame three_samples_encoded < 1 ->
      frames three_samples_encoded = []).
Proof.
  apply (encoded_frames_invariants 2 default_args three_samples
           three_samples_encoded).
  vm_compute. reflexivity.
Defined.

(** X16. In standalone mode the step time is stored in one byte of the
    header: when the step time ([--step-time], or [1000 // fps], which is
    above 255 for [--fps] 1, 2 and 3) is outside 0..255, [main] never
    returns a size and writes no file, whatever the audio. *)
Theorem step_time_must_fit_a_byte (fuel : nat) (args : Args) (audio : Audio)
    (st : Z) :
  merge args = None ->
  main_step_time args = Ok st ->
  ~ 0 <= st < 2 ^ 8 ->
  file (main fuel args audio) = None
  /\ forall size, result (main fuel args audio) <> Ok size.
Proof.
  intros Hmerge Hst Hbyte. unfold main.
  destruct (main_encode fuel args audio) as [enc| |] eqn:E;
    [|split; [reflexivity | discriminate]..].
  apply main_encode_inv in E.
  destruct E as [_ [_ [_ [Hst' _]]]].
  assert (Heq : step_time_ms enc = st) by congruence.
  rewrite Hmerge.
  destruct (build_variable_header (input args)) as [vh| |];
    [|split; [reflexivity | discriminate]..].
  unfold write_fseq_v2. rewrite fixed_header_out_of_range
    by (rewrite Heq; tauto).
  split; [reflexivity | discriminate].
Qed.

Lemma step_time_must_fit_a_byte_witness :
  file (main 2 slow_args three_samples) = None
  /\ forall size, result (main 2 slow_args three_samples) <> Ok size.
Proof.
  apply (step_time_must_fit_a_byte 2 slow_args three_samples 500).
  - reflexivity.
  - vm_compute. reflexivity.
  - lia.
Defined.



(** ** WAV reader *)

Lemma wav_mapM_map {A B : Type} (f : A -> Wav.result B) (g : A -> B)
    (xs : list A) :
  (forall x, In x xs -> f x = inr (g x)) -> Wav.mapM f xs = inr (map g xs).
Proof.
  induction xs as [|x xs IH]; intros H; cbn [Wav.mapM map]; [reflexivity|].
  rewrite (H x (or_introl eq_refl)). cbn [Wav.bind].
  rewrite IH by (intros y Hy; apply H; now right). reflexivity.
Qed.

Lemma signed_range (bits u : Z) :
  1 <= bits -> 0 <= u < 2 ^ bits ->
  - 2 ^ (bits - 1) <= signed bits u < 2 ^ (bits - 1).
Proof.
  intros Hb Hu. unfold signed.
  replace (2 ^ bits) with (2 * 2 ^ (bits - 1)) in *
    by (rewrite <- Z.pow_succ_r by lia; f_equal; lia).
  destruct (u <? 2 ^ (bits - 1)) eqn:E;
    [apply Z.ltb_lt in E | apply Z.ltb_ge in E]; lia.
Qed.

Lemma array_item_ok (bits v : Z) :
  - 2 ^ (bits - 1) <= v < 2 ^ (bits - 1) -> array_item bits v = inr v.
Proof.
  intros H. unfold array_item.
  destruct (- 2 ^ (bits - 1) <=? v) eqn:E1; [|apply Z.leb_gt in E1; lia].
  destruct (v <? 2 ^ (bits - 1)) eqn:E2; [|apply Z.ltb_ge in E2; lia].
  reflexivity.
Qed.

Lemma array_item_int16 (v : Z) : int16 v -> array_item 16 v = inr v.
Proof.
  intros H. apply array_item_ok. unfold int16 in H.
  change (2 ^ (16 - 1)) with 32768. lia.
Qed.

Lemma le_combine_cons_add (b : byte) (bs : list byte) :
  le_combine (b :: bs) = byte.unsigned b + 256 * le_combine bs.
Proof.
  change (le_combine (b :: bs))
    with (Z.lor (byte.unsigned b) (Z.shiftl (le_combine bs) 8)).
  rewrite Z.shiftl_mul_pow2 by lia. change (2 ^ 8) with 256.
  pose proof (byte.unsigned_range b) as Hb. change (2 ^ 8) with 256 in Hb.
  assert (Hl : Z.land (byte.unsigned b) (le_combine bs * 256) = 0).
  { rewrite <- (Z.mod_small (byte.unsigned b) 256) by lia.
    change 256 with (2 ^ 8). rewrite <- Z.land_ones by lia.
    rewrite <- Z.land_assoc, (Z.land_comm (Z.ones 8)), Z.land_ones by lia.
    rewrite Z.mod_mul by lia. apply Z.land_0_r. }
  rewrite <- Z.lxor_lor by exact Hl.
  rewrite <- Z.add_nocarry_lxor by exact Hl. lia.
Qed.

Lemma le_combine_len_bound (bs : list byte) :
  0 <= le_combine bs < 2 ^ (8 * len bs).
Proof. apply le_combine_bound. Qed.

Lemma int16_of_range (lo hi : byte) : int16 (int16_of lo hi).
Proof.
  unfold int16_of, int16.
  pose proof (byte.unsigned_range lo) as Hl.
  pose proof (byte.unsigned_range hi) as Hh.
  change (2 ^ 8) with 256 in *.
  pose proof (signed_range 16 (byte.unsigned lo + 256 * byte.unsigned hi)
                ltac:(lia)) as H.
  change (2 ^ 16) with 65536 in H. change (2 ^ (16 - 1)) with 32768 in H.
  lia.
Qed.

Lemma signed16_pair (b0 b1 : byte) :
  signed (8 * 2) (le_combine [b0; b1]) = int16_of b0 b1.
Proof.
  rewrite !le_combine_cons_add. change (le_combine []) with 0.
  unfold int16_of. change (8 * 2) with 16. f_equal. lia.
Qed.

Lemma top16_of_24 (b0 b1 b2 : byte) :
  Z.shiftr (from_bytes_signed [b0; b1; b2]) 8 = int16_of b1 b2.
Proof.
  unfold from_bytes_signed. rewrite !le_combine_cons_add.
  change (le_combine []) with 0. change (8 * len [b0; b1; b2]) with 24.
  rewrite Z.shiftr_div_pow2 by lia. unfold int16_of, signed.
  change (2 ^ (24 - 1)) with 8388608. change (2 ^ 24) with 16777216.
  change (2 ^ (16 - 1)) with 32768. change (2 ^ 16) with 65536.
  change (2 ^ 8) with 256.
  pose proof (byte.unsigned_range b0) as H0.
  pose proof (byte.unsigned_range b1) as H1.
  pose proof (byte.unsigned_range b2) as H2.
  change (2 ^ 8) with 256 in *.
  set (u0 := byte.unsigned b0) in *. set (u1 := byte.unsigned b1) in *.
  set (u2 := byte.unsigned b2) in *.
  destruct (u0 + 256 * (u1 + 256 * (u2 + 256 * 0)) <? 8388608) eqn:E1;
    destruct (u1 + 256 * u2 <? 32768) eqn:E2;
    rewrite ?Z.ltb_lt, ?Z.ltb_ge in *;
    Z.div_mod_to_equations; lia.
Qed.

Lemma top16_of_32 (b0 b1 b2 b3 : byte) :
  Z.shiftr (signed (8 * 4) (le_combine [b0; b1; b2; b3])) 16 = int16_of b2 b3.
Proof.
  rewrite !le_combine_cons_add.
  change (le_combine []) with 0. change (8 * 4) with 32.
  rewrite Z.shiftr_div_pow2 by lia. unfold int16_of, signed.
  change (2 ^ (32 - 1)) with 2147483648. change (2 ^ 32) with 4294967296.
  change (2 ^ (16 - 1)) with 32768. change (2 ^ 16) with 65536.
  pose proof (byte.unsigned_range b0) as H0.
  pose proof (byte.unsigned_range b1) as H1.
  pose proof (byte.unsigned_range b2) as H2.
  pose proof (byte.unsigned_range b3) as H3.
  change (2 ^ 8) with 256 in *.
  set (u0 := byte.unsigned b0) in *. set (u1 := byte.unsigned b1) in *.
  set (u2 := byte.unsigned b2) in *. set (u3 := byte.unsigned b3) in *.
  destruct (u0 + 256 * (u1 + 256 * (u2 + 256 * (u3 + 256 * 0)))
            <? 2147483648) eqn:E1;
    destruct (u2 + 256 * u3 <? 32768) eqn:E2;
    rewrite ?Z.ltb_lt, ?Z.ltb_ge in *;
    Z.div_mod_to_equations; lia.
Qed.

Lemma sample_bytes_int16_of (lo hi : byte) :
  sample_bytes (int16_of lo hi) = [hi; lo].
Proof.
  unfold sample_bytes. cbv zeta.
  rewrite !land_255, Z.shiftr_div_pow2 by lia.
  change (2 ^ 8) with 256.
  pose proof (byte.unsigned_range lo) as Hl.
  pose proof (byte.unsigned_range hi) as Hh.
  change (2 ^ 8) with 256 in *.
  set (u := if int16_of lo hi <? 0 then int16_of lo hi + 65536
            else int16_of lo hi).
  assert (Hu : (u / 256) mod 256 = byte.unsigned hi
               /\ u mod 256 = byte.unsigned lo).
  { subst u. unfold int16_of, signed.
    change (2 ^ (16 - 1)) with 32768. change (2 ^ 16) with 65536.
    set (ul := byte.unsigned lo) in *. set (uh := byte.unsigned hi) in *.
    destruct (ul + 256 * uh <? 32768) eqn:E;
      [destruct (ul + 256 * uh <? 0) eqn:E0
      |destruct (ul + 256 * uh - 65536 <? 0) eqn:E0];
      rewrite ?Z.ltb_lt, ?Z.ltb_ge in *;
      Z.div_mod_to_equations; lia. }
  destruct Hu as [Hhi Hlo]. rewrite Hhi, Hlo.
  now rewrite !byte.of_Z_unsigned.
Qed.

Lemma chunk_inside (total size k : Z) :
  1 <= size -> 0 <= k < total / size -> k * size + size <= total.
Proof.
  intros Hs Hk.
  pose proof (Z.div_mod total size ltac:(lia)) as Hd.
  pose proof (Z.mod_pos_bound total size ltac:(lia)) as Hm. nia.
Qed.

Lemma signed_chunk_range (raw : list byte) (size k : Z) :
  1 <= size -> 0 <= k < len raw / size ->
  - 2 ^ (8 * size - 1)
  <= signed (8 * size) (le_combine (slice raw (k * size) (k * size + size)))
  < 2 ^ (8 * size - 1).
Proof.
  intros Hs Hk. pose proof (chunk_inside (len raw) size k Hs Hk) as Hin.
  apply signed_range; [lia|].
  pose proof (le_combine_len_bound (slice raw (k * size) (k * size + size)))
    as Hb.
  rewrite len_slice_inside in Hb by nia.
  now replace (k * size + size - k * size) with size in Hb by lia.
Qed.

Lemma read_wav_8bit (wf : WaveFile) :
  getsampwidth wf = 1 ->
  read_wav wf
  = inr (map (fun b => (byte.unsigned b - 128) * 256) (readframes wf),
         getframerate wf, getnchannels wf, 2).
Proof.
  intros Hw. unfold read_wav. rewrite Hw. cbn [Z.eqb Pos.eqb].
  unfold array_of.
  rewrite (wav_mapM_map _ (fun v => v)).
  - cbn [Wav.bind]. rewrite map_id.
    rewrite (wav_mapM_map _ (fun v => v)).
    + cbn [Wav.bind]. now rewrite map_id, map_map.
    + intros x Hx. apply in_map_iff in Hx. destruct Hx as [s [<- Hs]].
      apply in_map_iff in Hs. destruct Hs as [b [<- _]].
      pose proof (byte.unsigned_range b) as Hb. change (2 ^ 8) with 256 in Hb.
      apply array_item_int16. unfold int16. lia.
  - intros x Hx. apply in_map_iff in Hx. destruct Hx as [b [<- _]].
    pose proof (byte.unsigned_range b) as Hb. change (2 ^ 8) with 256 in Hb.
    apply array_item_ok. change (2 ^ (8 - 1)) with 128. lia.
Qed.

Lemma read_wav_16bit (wf : WaveFile) :
  getsampwidth wf = 2 ->
  len (readframes wf) mod 2 = 0 ->
  read_wav wf
  = inr (map (fun k =>
                signed (8 * 2)
                  (le_combine (slice (readframes wf) (k * 2) (k * 2 + 2))))
             (range (len (readframes wf) / 2)),
         getframerate wf, getnchannels wf, 2).
Proof.
  intros Hw Hlen. unfold read_wav, frombytes. rewrite Hw, Hlen.
  reflexivity.
Qed.

Lemma read_wav_24bit (wf : WaveFile) :
  getsampwidth wf = 3 ->
  read_wav wf
  = inr (map (fun i =>
                Z.shiftr
                  (from_bytes_signed (slice (readframes wf) i (i + 3))) 8)
             (map (fun k => 0 + Z.of_nat k * 3)
                  (seq 0 (Z.to_nat ((len (readframes wf) + 3 - 1) / 3)))),
         getframerate wf, getnchannels wf, 2).
Proof.
  intros Hw. unfold read_wav. rewrite Hw. cbn [Z.eqb Pos.eqb].
  rewrite range3_forward by lia.
  set (raw := readframes wf).
  rewrite (wav_mapM_map _ (fun i =>
             Z.shiftr (from_bytes_signed (slice raw i (i + 3))) 8));
    [reflexivity|].
  intros i Hi. apply in_map_iff in Hi. destruct Hi as [k [<- Hk]].
  apply in_seq in Hk. cbv zeta. apply array_item_int16.
  pose proof (len_nonneg raw) as Hl.
  assert (Hlt : Z.of_nat k * 3 < len raw).
  { pose proof (Z.div_mod (len raw + 3 - 1) 3 ltac:(lia)).
    pose proof (Z.mod_pos_bound (len raw + 3 - 1) 3 ltac:(lia)).
    assert (Z.of_nat k < (len raw + 3 - 1) / 3) by lia. lia. }
  set (chunk := slice raw (0 + Z.of_nat k * 3) (0 + Z.of_nat k * 3 + 3)).
  assert (Hclen : 1 <= len chunk <= 3).
  { subst chunk. rewrite slice_nonneg by lia. unfold len in *.
    rewrite length_firstn, length_skipn. lia. }
  pose proof (le_combine_len_bound chunk) as Hb.
  pose proof (signed_range (8 * len chunk) (le_combine chunk) ltac:(lia) Hb)
    as Hs.
  assert (Hp : 2 ^ (8 * len chunk - 1) <= 2 ^ 23)
    by (apply Z.pow_le_mono_r; lia).
  change (2 ^ 23) with 8388608 in Hp.
  unfold from_bytes_signed.
  destruct chunk as [|b chunk'] eqn:Ec; [cbn in Hclen; lia|].
  rewrite Z.shiftr_div_pow2 by lia. change (2 ^ 8) with 256.
  unfold int16. Z.div_mod_to_equations. lia.
Qed.

Lemma read_wav_32bit (wf : WaveFile) :
  getsampwidth wf = 4 ->
  len (readframes wf) mod 4 = 0 ->
  read_wav wf
  = inr (map (fun k =>
                Z.shiftr
                  (signed (8 * 4)
                     (le_combine (slice (readframes wf) (k * 4) (k * 4 + 4))))
                  16)
             (range (len (readframes wf) / 4)),
         getframerate wf, getnchannels wf, 2).
Proof.
  intros Hw Hlen. unfold read_wav, frombytes. rewrite Hw, Hlen.
  cbn [Z.eqb Pos.eqb Wav.bind]. unfold array_of.
  rewrite (wav_mapM_map _ (fun v => v)).
  - cbn [Wav.bind]. now rewrite map_id, map_map.
  - intros x Hx. apply in_map_iff in Hx. destruct Hx as [s [<- Hs]].
    apply in_map_iff in Hs. destruct Hs as [k [<- Hk]].
    apply range_In in Hk.
    pose proof (signed_chunk_range (readframes wf) 4 k ltac:(lia) Hk) as Hr.
    change (2 ^ (8 * 4 - 1)) with 2147483648 in Hr.
    apply array_item_int16. rewrite Z.shiftr_div_pow2 by lia.
    change (2 ^ 16) with 65536. unfold int16. Z.div_mod_to_equations. lia.
Qed.

Lemma read_wav_run (wf : WaveFile) :
  getsampwidth wf = 1 \/ getsampwidth wf = 3
  \/ ((getsampwidth wf = 2 \/ getsampwidth wf = 4)
      /\ len (readframes wf) mod getsampwidth wf = 0) ->
  exists samples,
    read_wav wf = inr (samples, getframerate wf, getnchannels wf, 2)
    /\ Forall int16 samples
    /\ len samples
       = (len (readframes wf) + getsampwidth wf - 1) / getsampwidth wf.
Proof.
  pose proof (len_nonneg (readframes wf)) as Hl.
  intros [Hw|[Hw|[[Hw|Hw] Hlen]]]; rewrite Hw in *.
  - eexists. split; [now apply read_wav_8bit|]. split.
    + apply Forall_forall. intros x Hx. apply in_map_iff in Hx.
      destruct Hx as [b [<- _]].
      pose proof (byte.unsigned_range b) as Hb. change (2 ^ 8) with 256 in Hb.
      unfold int16. lia.
    + unfold len. rewrite length_map.
      replace (Z.of_nat (length (readframes wf)) + 1 - 1)
        with (Z.of_nat (length (readframes wf))) by lia.
      now rewrite Z.div_1_r.
  - eexists. split; [now apply read_wav_24bit|]. split.
    + pose proof (read_wav_24bit wf Hw) as E.
      apply Forall_forall. intros x Hx. apply in_map_iff in Hx.
      destruct Hx as [i [<- Hi]]. apply in_map_iff in Hi.
      destruct Hi as [k [<- Hk]]. apply in_seq in Hk.
      assert (Hlt : Z.of_nat k * 3 < len (readframes wf)).
      { pose proof (Z.div_mod (len (readframes wf) + 3 - 1) 3 ltac:(lia)).
        pose proof (Z.mod_pos_bound (len (readframes wf) + 3 - 1) 3
                      ltac:(lia)).
        assert (Z.of_nat k < (len (readframes wf) + 3 - 1) / 3) by lia. lia. }
      set (chunk := slice (readframes wf) (0 + Z.of_nat k * 3)
                      (0 + Z.of_nat k * 3 + 3)).
      assert (Hclen : 1 <= len chunk <= 3).
      { subst chunk. rewrite slice_nonneg by lia. unfold len in *.
        rewrite length_firstn, length_skipn. lia. }
      pose proof (le_combine_len_bound chunk) as Hb.
      pose proof (signed_range (8 * len chunk) (le_combine chunk)
                    ltac:(lia) Hb) as Hs.
      assert (Hp : 2 ^ (8 * len chunk - 1) <= 2 ^ 23)
        by (apply Z.pow_le_mono_r; lia).
      change (2 ^ 23) with 8388608 in Hp.
      unfold from_bytes_signed.
      destruct chunk as [|b chunk'] eqn:Ec; [cbn in Hclen; lia|].
      rewrite Z.shiftr_div_pow2 by lia. change (2 ^ 8) with 256.
      unfold int16. Z.div_mod_to_equations. lia.
    + unfold len at 1. rewrite !length_map, length_seq.
      rewrite Z2Nat.id; [reflexivity|]. apply Z.div_pos; lia.
  - eexists. split; [now apply read_wav_16bit|]. split.
    + apply Forall_forall. intros x Hx. apply in_map_iff in Hx.
      destruct Hx as [k [<- Hk]]. apply range_In in Hk.
      pose proof (signed_chunk_range (readframes wf) 2 k ltac:(lia) Hk) as Hr.
      change (2 ^ (8 * 2 - 1)) with 32768 in Hr. unfold int16. lia.
    + unfold len at 1. rewrite length_map, range_length.
      rewrite Z2Nat.id by (apply Z.div_pos; lia).
      Z.div_mod_to_equations. lia.
  - eexists. split; [now apply read_wav_32bit|]. split.
    + apply Forall_forall. intros x Hx. apply in_map_iff in Hx.
      destruct Hx as [k [<- Hk]]. apply range_In in Hk.
      pose proof (signed_chunk_range (readframes wf) 4 k ltac:(lia) Hk) as Hr.
      change (2 ^ (8 * 4 - 1)) with 2147483648 in Hr.
      rewrite Z.shiftr_div_pow2 by lia.
      change (2 ^ 16) with 65536. unfold int16. Z.div_mod_to_equations. lia.
    + unfold len at 1. rewrite length_map, range_length.
      rewrite Z2Nat.id by (apply Z.div_pos; lia).
      Z.div_mod_to_equations. lia.
Qed.

Lemma slice_app_l {A : Type} (a c : list A) (i j : Z) :
  0 <= i -> i <= j -> j <= len a -> slice (a ++ c) i j = slice a i j.
Proof.
  intros Hi Hij Hj. pose proof (len_nonneg c) as Hc.
  rewrite !slice_inside by (rewrite ?len_app; lia).
  unfold len in Hj.
  rewrite skipn_app, firstn_app, length_skipn.
  replace (Z.to_nat (j - i) - (length a - Z.to_nat i))%nat with 0%nat by lia.
  cbn [firstn]. now rewrite app_nil_r.
Qed.

Lemma map_slice_concat {B : Type} (F : list byte -> B) (w : Z)
    (gs : list (list byte)) :
  1 <= w ->
  Forall (fun g => len g = w) gs ->
  map (fun k => F (slice (concat gs) (k * w) (k * w + w))) (range (len gs))
  = map F gs.
Proof.
  intros Hw. induction gs as [|g gs IH] using rev_ind; intros Hall;
    [reflexivity|].
  apply Forall_app in Hall. destruct Hall as [Hgs Hg].
  apply Forall_inv in Hg.
  pose proof (len_concat_uniform gs w Hgs) as Hlen.
  pose proof (len_nonneg gs) as Hn.
  unfold len at 1. rewrite length_app, Nat.add_1_r. cbn [length].
  rewrite range_succ, !map_app, concat_app. cbn [map concat].
  rewrite app_nil_r. f_equal.
  - rewrite <- (IH Hgs). apply map_ext_in. intros k Hk.
    apply range_In in Hk. fold (len gs) in Hk.
    f_equal. apply slice_app_l; nia.
  - f_equal. f_equal. fold (len gs).
    pose proof (slice_app_middle (concat gs) g []) as Hmid.
    rewrite app_nil_r in Hmid. rewrite Hlen, Hg in Hmid. exact Hmid.
Qed.

Lemma grouped_samples {T : Type} (bytes_of : T -> list byte) (w : Z)
    (F : list byte -> Z) (value : T -> Z) (ts : list T) :
  1 <= w ->
  (forall t, len (bytes_of t) = w) ->
  (forall t, F (bytes_of t) = value t) ->
  len (flat_map bytes_of ts) = len ts * w
  /\ map (fun k => F (slice (flat_map bytes_of ts) (k * w) (k * w + w)))
         (range (len ts))
     = map value ts.
Proof.
  intros Hw Hlen Hval.
  assert (Hall : Forall (fun g => len g = w) (map bytes_of ts))
    by (apply Forall_forall; intros g Hg; apply in_map_iff in Hg;
        destruct Hg as [t [<- _]]; apply Hlen).
  rewrite flat_map_concat_map. split.
  - rewrite (len_concat_uniform _ w Hall). unfold len.
    now rewrite length_map.
  - replace (len ts) with (len (map bytes_of ts))
      by (unfold len; now rewrite length_map).
    rewrite (map_slice_concat F w _ Hw Hall), map_map.
    apply map_ext. exact Hval.
Qed.

Lemma range_as_seq (n : Z) : range n = map Z.of_nat (seq 0 (Z.to_nat n)).
Proof. reflexivity. Qed.

Lemma read_wav_pairs (nch rate : Z) (ps : list (byte * byte)) :
  read_wav (wave_file nch 2 rate (flat_map bytes_of_pair ps))
  = inr (map value_of_pair ps, rate, nch, 2).
Proof.
  destruct (grouped_samples bytes_of_pair 2
              (fun c => signed (8 * 2) (le_combine c)) value_of_pair ps)
    as [Hlen Hmap]; [lia|reflexivity| |].
  { intros [b0 b1]. apply signed16_pair. }
  rewrite read_wav_16bit; cbn [wave_file getsampwidth readframes
    getframerate getnchannels]; [|reflexivity|rewrite Hlen; apply Z.mod_mul; lia].
  rewrite Hlen, Z.div_mul by lia. now rewrite Hmap.
Qed.

Lemma read_wav_triples (nch rate : Z) (ts : list (byte * byte * byte)) :
  read_wav (wave_file nch 3 rate (flat_map bytes_of_triple ts))
  = inr (map value_of_triple ts, rate, nch, 2).
Proof.
  destruct (grouped_samples bytes_of_triple 3
              (fun c => Z.shiftr (from_bytes_signed c) 8) value_of_triple ts)
    as [Hlen Hmap]; [lia| | |].
  { intros [[b0 b1] b2]. reflexivity. }
  { intros [[b0 b1] b2]. apply top16_of_24. }
  rewrite read_wav_24bit by reflexivity.
  cbn [wave_file getsampwidth readframes getframerate getnchannels].
  rewrite Hlen, <- Hmap, range_as_seq, !map_map.
  pose proof (len_nonneg ts) as Hn.
  replace ((len ts * 3 + 3 - 1) / 3) with (len ts)
    by (Z.div_mod_to_equations; lia).
  match goal with
  | |- inr (?a, _, _, _) = inr (?b, _, _, _) =>
      assert (E : a = b); [|now rewrite E]
  end.
  apply map_ext. intros k.
  now replace (0 + Z.of_nat k * 3) with (Z.of_nat k * 3) by lia.
Qed.

Lemma read_wav_quads (nch rate : Z) (qs : list (byte * byte * byte * byte)) :
  read_wav (wave_file nch 4 rate (flat_map bytes_of_quad qs))
  = inr (map value_of_quad qs, rate, nch, 2).
Proof.
  destruct (grouped_samples bytes_of_quad 4
              (fun c => Z.shiftr (signed (8 * 4) (le_combine c)) 16)
              value_of_quad qs)
    as [Hlen Hmap]; [lia| | |].
  { intros [[[b0 b1] b2] b3]. reflexivity. }
  { intros [[[b0 b1] b2] b3]. apply top16_of_32. }
  rewrite read_wav_32bit; cbn [wave_file getsampwidth readframes
    getframerate getnchannels]; [|reflexivity|rewrite Hlen; apply Z.mod_mul; lia].
  rewrite Hlen, Z.div_mul by lia. now rewrite Hmap.
Qed.

(** X18. For the four supported sample widths [read_wav] returns 16-bit
    samples and passes the rate and the channel count on: 8-bit and 24-bit
    data of any length, 16-bit and 32-bit data whose length is a multiple
    of the width. It returns [ceil(len(raw) / width)] samples, each in
    [-32768, 32767], and the sample width it reports is 2. *)
Theorem read_wav_returns_16_bit (wf : WaveFile) :
  getsampwidth wf = 1 \/ getsampwidth wf = 3
  \/ ((getsampwidth wf = 2 \/ getsampwidth wf = 4)
      /\ len (readframes wf) mod getsampwidth wf = 0) ->
  exists samples,
    read_wav wf = inr (samples, getframerate wf, getnchannels wf, 2)
    /\ Forall int16 samples
    /\ len samples
       = (len (readframes wf) + getsampwidth wf - 1) / getsampwidth wf.
Proof. exact (read_wav_run wf). Qed.

Lemma read_wav_returns_16_bit_witness :
  exists samples,
    read_wav wav24 = inr (samples, getframerate wav24, getnchannels wav24, 2)
    /\ Forall int16 samples
    /\ len samples
       = (len (readframes wav24) + getsampwidth wav24 - 1)
         / getsampwidth wav24.
Proof.
  apply (read_wav_returns_16_bit wav24). right. left. reflexivity.
Defined.

(** X19. [read_wav] raises [ValueError] for a sample width other than 1,
    2, 3 or 4, and for 16-bit or 32-bit data whose length is no multiple
    of the width (from [frombytes]); no input makes an [array] item
    overflow. *)
Theorem read_wav_rejections (wf : WaveFile) :
  (~ 1 <= getsampwidth wf <= 4 -> read_wav wf = inl Wav.ValueError)
  /\ (getsampwidth wf = 2 \/ getsampwidth wf = 4 ->
      len (readframes wf) mod getsampwidth wf <> 0 ->
      read_wav wf = inl Wav.ValueError)
  /\ read_wav wf <> inl Wav.OverflowError.
Proof.
  assert (H1 : ~ 1 <= getsampwidth wf <= 4 ->
               read_wav wf = inl Wav.ValueError).
  { intros Hw. unfold read_wav.
    test_false (getsampwidth wf =? 1). test_false (getsampwidth wf =? 2).
    test_false (getsampwidth wf =? 3). test_false (getsampwidth wf =? 4).
    reflexivity. }
  assert (H2 : getsampwidth wf = 2 \/ getsampwidth wf = 4 ->
               len (readframes wf) mod getsampwidth wf <> 0 ->
               read_wav wf = inl Wav.ValueError).
  { intros [Hw|Hw] Hlen; unfold read_wav, frombytes; rewrite Hw in *;
      cbn [Z.eqb Pos.eqb];
      match goal with
      | |- context [?a mod ?b =? 0] =>
          destruct (a mod b =? 0) eqn:E; [apply Z.eqb_eq in E; lia|]
      end; reflexivity. }
  split; [exact H1|]. split; [exact H2|].
  destruct (Z.eq_dec (getsampwidth wf) 1) as [W1|W1];
    [destruct (read_wav_run wf) as [s [E _]]; [tauto | congruence]|].
  destruct (Z.eq_dec (getsampwidth wf) 3) as [W3|W3];
    [destruct (read_wav_run wf) as [s [E _]]; [tauto | congruence]|].
  destruct (Z.eq_dec (getsampwidth wf) 2) as [W2|W2];
    [destruct (Z.eq_dec (len (readframes wf) mod getsampwidth wf) 0)
       as [M|M];
     [destruct (read_wav_run wf) as [s [E _]]; [tauto | congruence]
     |rewrite H2 by tauto; discriminate]|].
  destruct (Z.eq_dec (getsampwidth wf) 4) as [W4|W4];
    [destruct (Z.eq_dec (len (readframes wf) mod getsampwidth wf) 0)
       as [M|M];
     [destruct (read_wav_run wf) as [s [E _]]; [tauto | congruence]
     |rewrite H2 by tauto; discriminate]|].
  rewrite H1 by lia. discriminate.
Qed.

Lemma read_wav_rejections_witness :
  read_wav wav40 = inl Wav.ValueError
  /\ read_wav wav16_odd = inl Wav.ValueError.
Proof.
  split.
  - apply (proj1 (read_wav_rejections wav40)). cbn. lia.
  - apply (proj1 (proj2 (read_wav_rejections wav16_odd)));
      [left; reflexivity | cbn; lia].
Defined.

(** X20. What [read_wav] keeps of each sample: an unsigned 8-bit sample
    [b] becomes [(b - 128) * 256]; a 16-bit sample is read little-endian;
    of a 24-bit and of a 32-bit sample the two most significant bytes are
    kept as a 16-bit value and the lower bytes are dropped. *)
Theorem read_wav_keeps_top_16_bits (nch rate : Z) :
  (forall bs : list byte,
     read_wav (wave_file nch 1 rate bs)
     = inr (map value_of_byte bs, rate, nch, 2))
  /\ (forall ps : list (byte * byte),
        read_wav (wave_file nch 2 rate (flat_map bytes_of_pair ps))
        = inr (map value_of_pair ps, rate, nch, 2))
  /\ (forall ts : list (byte * byte * byte),
        read_wav (wave_file nch 3 rate (flat_map bytes_of_triple ts))
        = inr (map value_of_triple ts, rate, nch, 2))
  /\ (forall qs : list (byte * byte * byte * byte),
        read_wav (wave_file nch 4 rate (flat_map bytes_of_quad qs))
        = inr (map value_of_quad qs, rate, nch, 2)).
Proof.
  split; [|split; [|split]].
  - intros bs. now rewrite read_wav_8bit.
  - apply read_wav_pairs.
  - apply read_wav_triples.
  - apply read_wav_quads.
Qed.

(** X21. From the WAV file to the frame: the two bytes the frame encoder
    writes for a sample that [read_wav] returned are the sample's two most
    significant bytes in the file, high byte first. For 16-bit data the
    PCM bytes of the frames are the data bytes swapped in pairs. *)
Theorem wav_bytes_in_frames (nch rate : Z) :
  (forall ps : list (byte * byte),
     exists samples,
       read_wav (wave_file nch 2 rate (flat_map bytes_of_pair ps))
       = inr (samples, rate, nch, 2)
       /\ flat_map sample_bytes samples = flat_map top_of_pair ps)
  /\ (forall ts : list (byte * byte * byte),
        exists samples,
          read_wav (wave_file nch 3 rate (flat_map bytes_of_triple ts))
          = inr (samples, rate, nch, 2)
          /\ flat_map sample_bytes samples = flat_map top_of_triple ts)
  /\ (forall qs : list (byte * byte * byte * byte),
        exists samples,
          read_wav (wave_file nch 4 rate (flat_map bytes_of_quad qs))
          = inr (samples, rate, nch, 2)
          /\ flat_map sample_bytes samples = flat_map top_of_quad qs).
Proof.
  split; [|split].
  - intros ps. eexists. split; [apply read_wav_pairs|].
    induction ps as [|[b0 b1] ps IH]; [reflexivity|].
    cbn [map flat_map]. rewrite IH. unfold value_of_pair. cbn [fst snd].
    now rewrite sample_bytes_int16_of.
  - intros ts. eexists. split; [apply read_wav_triples|].
    induction ts as [|[[b0 b1] b2] ts IH]; [reflexivity|].
    cbn [map flat_map]. rewrite IH. cbn [value_of_triple top_of_triple].
    now rewrite sample_bytes_int16_of.
  - intros qs. eexists. split; [apply read_wav_quads|].
    induction qs as [|[[[b0 b1] b2] b3] qs IH]; [reflexivity|].
    cbn [map flat_map]. rewrite IH. cbn [value_of_quad top_of_quad].
    now rewrite sample_bytes_int16_of.
Qed.

(** ** The verbose dump *)

(** X22. The [--verbose] dump at the end of [main] reads the first frame.
    When the encoded audio has no samples, so that the frame count is 0,
    it raises [IndexError] (after the file has been written); otherwise it
    shows the first [min(32, 2 + 2 * samples_per_frame)] bytes of the first
    frame, which start with the sync marker. *)
Theorem verbose_dump_cases (fuel : nat) (args : Args) (audio : Audio)
    (enc : Encoded) :
  main_encode fuel args audio = Ok enc ->
  1 <= samples_per_frame enc ->
  (total_frames enc = 0
   /\ main_verbose_dump (frames enc) = Raise IndexError)
  \/ (1 <= total_frames enc
      /\ exists first,
           main_verbose_dump (frames enc) = Ok first
           /\ firstn 2 first = SYNC_MARKER
           /\ len first = Z.min 32 (2 + samples_per_frame enc * 2)).
Proof.
  intros H Hspf. apply main_encode_inv in H.
  destruct H as [mixed [resampled [n [_ [_ [_ [_ [_ [_ [Htf Hfr]]]]]]]]]].
  apply samples_to_frame_channels_inv in Hfr; [|assumption].
  fold (frame_count_of (len resampled) (samples_per_frame enc)) in Htf.
  rewrite <- Htf in Hfr.
  pose proof (len_nonneg resampled) as Hl.
  pose proof (frame_count_of_nonneg (len resampled) (samples_per_frame enc)
                Hl Hspf) as Hfc.
  rewrite <- Htf in Hfc. rewrite Hfr.
  destruct (Z.eq_dec (total_frames enc) 0) as [E0|E0].
  - left. split; [exact E0|]. rewrite E0. reflexivity.
  - right. split; [lia|].
    set (frames0 := map (encode_frame resampled (samples_per_frame enc))
                      (range (total_frames enc))).
    assert (Hcount : len frames0 = total_frames enc).
    { unfold len, frames0. rewrite length_map, range_length. lia. }
    unfold main_verbose_dump.
    rewrite (index_ok frames0 0 []) by lia. cbn [bind].
    assert (Hfirst : nth (Z.to_nat 0) frames0 []
                     = encode_frame resampled (samples_per_frame enc) 0).
    { unfold frames0, range.
      destruct (Z.to_nat (total_frames enc)) eqn:En; [lia|]. reflexivity. }
    rewrite Hfirst. eexists. split; [reflexivity|].
    pose proof (encode_frame_length resampled (samples_per_frame enc) 0
                  ltac:(lia) ltac:(lia)) as Hlen.
    set (frame := encode_frame resampled (samples_per_frame enc) 0) in *.
    assert (Hsync : firstn 2 frame = SYNC_MARKER) by reflexivity.
    rewrite slice_nonneg by lia. rewrite Hlen.
    rewrite (Z.min_l 0) by lia. cbn [Z.to_nat skipn].
    rewrite Z.sub_0_r. split.
    + rewrite firstn_firstn.
      replace (Nat.min 2 (Z.to_nat (Z.min 32 (2 + samples_per_frame enc * 2))))
        with 2%nat by lia.
      exact Hsync.
    + unfold len in *. rewrite length_firstn. lia.
Qed.

Lemma verbose_dump_cases_witness :
  (total_frames three_samples_encoded = 0
   /\ main_verbose_dump (frames three_samples_encoded) = Raise IndexError)
  \/ (1 <= total_frames three_samples_encoded
      /\ exists first,
           main_verbose_dump (frames three_samples_encoded) = Ok first
           /\ firstn 2 first = SYNC_MARKER
           /\ len first
              = Z.min 32 (2 + samples_per_frame three_samples_encoded * 2)).
Proof.
  apply (verbose_dump_cases 2 default_args three_samples
           three_samples_encoded).
  - vm_compute. reflexivity.
  - vm_compute. discriminate.
Defined.
